(** * Quinipolo: translation-key validation and result auto-fill

    A shallow embedding of the executable pieces of the repository:

    - [Translations]: [scripts/validate-translations.js]
      ([extractKeys], [readTranslationFile], [validateTranslationSet]);
    - [AutoFill]: [utils/autoFillUtils.ts] as listed in
      [PAST PLANS/plan_answersform_refactor.md]
      ([scoreToGoalRange], [applyAutoFillResults]);
    - [TranslationsScript]: the rest of the script ([findTranslationFiles],
      [validateTranslations], the report of the extra keys);
    - [AnswersForm]: the helpers of the answers form listed in the same
      plan ([findMissingAnswers], [prepareAnswersForSubmission],
      [mapCorrectAnswersToInitial], [handleGame15Change], the start of
      [submitQuinipolo]);
    - [Pipeline]: the result pipeline of the backend.  Only the merge of
      the two result feeds is listed in the repository
      ([PAST PLANS/CHAMPIONS_LEAGUE_RESULTS_IMPLEMENTATION.md]); the date
      window, the de-duplication, the outcome resolver and the matching
      engine are modelled from the specification and marked as such.

    Scores, match numbers and timestamps are integers and are modelled
    by [Z]; a JavaScript [Set] of strings is a [gset string], a [Map]
    keyed by strings a [gmap string _]. *)

From Stdlib Require Import ZArith.
From stdpp Require Import gmap strings list fin_maps sorting.
From Equations Require Import Equations.

#[local] Set Warnings "-register-all".

(** * Part I: the program *)

(** ** scripts/validate-translations.js *)

Module Translations.

(** The values [JSON.parse] produces.  An object is the sequence of its
    own entries, as [Object.entries] enumerates them; the code never
    looks at the value of a number or of a string. *)
Inductive json : Type :=
| JNull
| JBool (b : bool)
| JNum (n : Z)
| JStr (s : string)
| JArr (items : list json)
| JObj (o : jobject)
with jobject : Type :=
| ONil
| OCons (key : string) (value : json) (rest : jobject).

Scheme json_mut := Induction for json Sort Prop
with jobject_mut := Induction for jobject Sort Prop.

Fixpoint entries (o : jobject) : list (string * json) :=
  match o with
  | ONil => []
  | OCons key value rest => (key, value) :: entries rest
  end.

(** [prefix ? `${prefix}.${key}` : key] -- the empty string is falsy. *)
Definition fullKeyOf (prefix key : string) : string :=
  if decide (prefix = "") then key else prefix +:+ "." +:+ key.

(** [value && typeof value === 'object' && !Array.isArray(value)] *)
Definition isNested (value : json) : bool :=
  match value with
  | JObj _ => true
  | _ => false
  end.

(** [extractKeys(obj, prefix = '')]: one iteration of the [for] loop per
    entry; a nested object adds the keys of the recursive call, every
    other value adds [fullKey] itself. *)
Fixpoint extractKeys (obj : jobject) (prefix : string) {struct obj} : gset string :=
  match obj with
  | ONil => ∅
  | OCons key value rest =>
      let fullKey := fullKeyOf prefix key in
      match value with
      | JObj nested => extractKeys nested fullKey
      | _ => {[ fullKey ]}
      end ∪ extractKeys rest prefix
  end.

(** [{ locale, path }] as pushed by [findTranslationFiles]. *)
Record TranslationFile : Type := { locale : string; path : string }.

(** A call either returns or ends the process ([process.exit(code)]). *)
Inductive Outcome (A : Type) : Type :=
| Returns (a : A)
| ProcessExit (code : Z).
Arguments Returns {A} a.
Arguments ProcessExit {A} code.

(** [readTranslationFile(filePath)].  The file system [fs] maps a path to
    the object its content parses to; a path that cannot be read or
    parsed is absent, and the [catch] block exits with code 1. *)
Definition readTranslationFile (fs : gmap string jobject) (filePath : string)
    : Outcome jobject :=
  match fs !! filePath with
  | Some data => Returns data
  | None => ProcessExit 1
  end.

(** The first loop of [validateTranslationSet]: [translations] and
    [allKeys] are threaded through the iterations. *)
Fixpoint readAll (fs : gmap string jobject) (files : list TranslationFile)
    (translations : gmap string (gset string)) (allKeys : gset string)
    : Outcome (gmap string (gset string) * gset string) :=
  match files with
  | [] => Returns (translations, allKeys)
  | file :: rest =>
      match readTranslationFile fs (path file) with
      | ProcessExit code => ProcessExit code
      | Returns data =>
          let keys := extractKeys data "" in
          readAll fs rest (<[locale file := keys]> translations) (allKeys ∪ keys)
      end
  end.

(** The inner loop: the keys of [allKeys] that [keys] does not have. *)
Definition missingIn (allKeys keys : gset string) : list string :=
  filter (λ key, key ∉ keys) (elements allKeys).

(** The second loop, over [translations.entries()], with its two
    accumulators [hasErrors] and [missingKeys]. *)
Definition checkLocales (translations : gmap string (gset string))
    (allKeys : gset string) : bool * gmap string (list string) :=
  map_fold (λ locale keys '(hasErrors, missingKeys),
      let missing := missingIn allKeys keys in
      if decide (0 < length missing)
      then (true, <[locale := missing]> missingKeys)
      else (hasErrors, missingKeys))
    (false, ∅) translations.

(** [validateTranslationSet(files, setName)]; the console output is not
    modelled, [setName] only occurs in it. *)
Definition validateTranslationSet (fs : gmap string jobject)
    (files : list TranslationFile) (setName : string) : Outcome bool :=
  match readAll fs files ∅ ∅ with
  | ProcessExit code => ProcessExit code
  | Returns (translations, allKeys) =>
      let '(hasErrors, _) := checkLocales translations allKeys in
      if hasErrors then Returns false else Returns true
  end.

(** *** Vocabulary of the statements *)

(** A path of keys that leads, through nested objects only, to a value
    that is not a nested object. *)
Inductive leafAt : jobject → list string → Prop :=
| leaf_here o key value :
    (key, value) ∈ entries o → isNested value = false → leafAt o [key]
| leaf_below o key nested path :
    (key, JObj nested) ∈ entries o → leafAt nested path → leafAt o (key :: path).

(** The key the code builds along a path, starting from [prefix]. *)
Definition joinPath (prefix : string) (path : list string) : string :=
  foldl fullKeyOf prefix path.

(** The dot-notation of a path, [path.join('.')]. *)
Definition dotJoin (path : list string) : string := String.concat "." path.

(** The key set of one file, when it can be read. *)
Definition keysOfFile (fs : gmap string jobject) (file : TranslationFile)
    : option (gset string) :=
  (λ data, extractKeys data "") <$> fs !! path file.

(** The union of the key sets of all the files. *)
Definition unionKeys (fs : gmap string jobject) (files : list TranslationFile)
    : gset string :=
  ⋃ (omap (keysOfFile fs) files).

(** Every file is readable and has exactly the keys of the union. *)
Definition sameKeysEverywhere (fs : gmap string jobject)
    (files : list TranslationFile) : Prop :=
  ∀ file, file ∈ files → keysOfFile fs file = Some (unionKeys fs files).

(** *** Example data *)

(** Two locales with the same keys, listed in different orders. *)
Definition enTranslation : jobject :=
  OCons "title" (JStr "Hello")
    (OCons "modal" (JObj (OCons "ok" (JStr "OK") ONil)) ONil).

Definition esTranslation : jobject :=
  OCons "modal" (JObj (OCons "ok" (JStr "Vale") ONil))
    (OCons "title" (JStr "Hola") ONil).

Definition exampleFs : gmap string jobject :=
  {[ "locales/en/translation.json" := enTranslation;
     "locales/es/translation.json" := esTranslation ]}.

Definition exampleFiles : list TranslationFile :=
  [ {| locale := "en"; path := "locales/en/translation.json" |};
    {| locale := "es"; path := "locales/es/translation.json" |} ].

(** Two files under one locale name, the second with one key more. *)
Definition duplicateLocaleFs : gmap string jobject :=
  {[ "old/en/translation.json" := OCons "title" (JStr "Hello") ONil;
     "new/en/translation.json" :=
       OCons "title" (JStr "Hello") (OCons "subtitle" (JStr "Hi") ONil) ]}.

Definition duplicateLocaleFiles : list TranslationFile :=
  [ {| locale := "en"; path := "old/en/translation.json" |};
    {| locale := "en"; path := "new/en/translation.json" |} ].

(** The object [{"": {"a": 1}}]. *)
Definition emptyKeyObject : jobject :=
  OCons "" (JObj (OCons "a" (JNum 1) ONil)) ONil.

End Translations.

(** ** utils/autoFillUtils.ts *)

Module AutoFill.

(** [gameType: "waterpolo" | "football"] of a quinipolo match. *)
Inductive GameType : Type := waterpolo | football.

(** [MatchResult], with the fields [applyAutoFillResults] reads. *)
Module MatchResult.
Record t : Type := {
  matchNumber : Z;
  outcome : string;
  homeScore : Z;
  awayScore : Z;
  homeRegulationScore : option Z;
  awayRegulationScore : option Z;
}.
End MatchResult.

(** [AnswersType].  An object built by spreading an empty slot lacks the
    properties the literal does not list, so every property is optional;
    [None] is [undefined]. *)
Module Answer.
Record t : Type := {
  matchNumber : option Z;
  chosenWinner : option string;
  isGame15 : option bool;
  goalsHomeTeam : option string;
  goalsAwayTeam : option string;
}.
Definition empty : t :=
  {| matchNumber := None; chosenWinner := None; isGame15 := None;
     goalsHomeTeam := None; goalsAwayTeam := None |}.
End Answer.

(** [QuinipoloType]: the [quinipolo] array of matches. *)
Module Quinipolo.
Record match_ : Type := {
  homeTeam : string;
  awayTeam : string;
  gameType : GameType;
}.
Record t : Type := { quinipolo : list match_ }.
End Quinipolo.

(** An array of answers; [None] is a hole or an [undefined] element. *)
Abbreviation AnswersArray := (list (option Answer.t)).

(** [arr[i]]: [undefined] out of range and on a hole. *)
Definition arrayGet (arr : AnswersArray) (i : nat) : option Answer.t :=
  mjoin (arr !! i).

(** [arr[i] = x]: writing past the end grows the array, leaving holes. *)
Definition arraySet (arr : AnswersArray) (i : nat) (x : Answer.t) : AnswersArray :=
  if decide (i < length arr)
  then <[i := Some x]> arr
  else arr ++ replicate (i - length arr) None ++ [Some x].

(** [{ ...slot }]: spreading [undefined] gives the empty object. *)
Definition spread (slot : option Answer.t) : Answer.t :=
  default Answer.empty slot.

Definition scoreToGoalRange (score : Z) : string :=
  if decide (score < 11)%Z then "-"
  else if decide (score >= 11 ∧ score <= 12)%Z then "11/12"
  else "+".

(** The "Set winner" block of the callback. *)
Definition chooseWinner (quinipolo : Quinipolo.t) (result : MatchResult.t)
    (matchIndex : nat) : string :=
  let outcome := MatchResult.outcome result in
  if decide (outcome = "Tie" ∨ outcome = "Tie (PEN)") then "empat"
  else
    match Quinipolo.quinipolo quinipolo !! matchIndex with
    | Some quinipoloMatch =>
        if decide (outcome = Quinipolo.homeTeam quinipoloMatch)
        then Quinipolo.homeTeam quinipoloMatch
        else if decide (outcome = Quinipolo.awayTeam quinipoloMatch)
        then Quinipolo.awayTeam quinipoloMatch
        else ""
    | None => ""
    end.

(** [homeScore] and [awayScore] of the game-15 block, after the
    regulation scores have replaced them for a penalty shootout. *)
Definition effectiveScores (result : MatchResult.t) : Z * Z :=
  match MatchResult.homeRegulationScore result,
        MatchResult.awayRegulationScore result with
  | Some homeRegulation, Some awayRegulation =>
      if decide (MatchResult.outcome result = "Tie (PEN)")
      then (homeRegulation, awayRegulation)
      else (MatchResult.homeScore result, MatchResult.awayScore result)
  | _, _ => (MatchResult.homeScore result, MatchResult.awayScore result)
  end.

(** [{ ...slot, matchNumber, chosenWinner, isGame15 }] *)
Definition withWinner (slot : Answer.t) (matchNumber : Z) (chosenWinner : string)
    (isGame15 : bool) : Answer.t :=
  {| Answer.matchNumber := Some matchNumber;
     Answer.chosenWinner := Some chosenWinner;
     Answer.isGame15 := Some isGame15;
     Answer.goalsHomeTeam := Answer.goalsHomeTeam slot;
     Answer.goalsAwayTeam := Answer.goalsAwayTeam slot |}.

(** [{ ...slot, goalsHomeTeam, goalsAwayTeam }] *)
Definition withGoals (slot : Answer.t) (goalsHomeTeam goalsAwayTeam : string)
    : Answer.t :=
  {| Answer.matchNumber := Answer.matchNumber slot;
     Answer.chosenWinner := Answer.chosenWinner slot;
     Answer.isGame15 := Answer.isGame15 slot;
     Answer.goalsHomeTeam := Some goalsHomeTeam;
     Answer.goalsAwayTeam := Some goalsAwayTeam |}.

(** The callback of [matches.forEach], on the array built so far. *)
Definition applyResult (quinipolo : Quinipolo.t) (updatedAnswers : AnswersArray)
    (result : MatchResult.t) : AnswersArray :=
  let matchIndex := (MatchResult.matchNumber result - 1)%Z in
  if decide (matchIndex < 0 ∨ matchIndex >= 15)%Z then updatedAnswers
  else
    let i := Z.to_nat matchIndex in
    let chosenWinner := chooseWinner quinipolo result i in
    let updatedAnswers :=
      arraySet updatedAnswers i
        (withWinner (spread (arrayGet updatedAnswers i))
           (MatchResult.matchNumber result) chosenWinner
           (bool_decide (matchIndex = 14%Z))) in
    if decide (matchIndex = 14%Z) then
      let '(homeScore, awayScore) := effectiveScores result in
      arraySet updatedAnswers 14
        (withGoals (spread (arrayGet updatedAnswers 14))
           (scoreToGoalRange homeScore) (scoreToGoalRange awayScore))
    else updatedAnswers.

(** [applyAutoFillResults(matches, currentAnswers, quinipolo)]: the copy
    [[...currentAnswers]] is the argument itself, values being immutable
    here. *)
Definition applyAutoFillResults (matches : list MatchResult.t)
    (currentAnswers : AnswersArray) (quinipolo : Quinipolo.t) : AnswersArray :=
  foldl (applyResult quinipolo) currentAnswers matches.

(** [createInitialAnswers()] of [constants.ts]: fourteen blank answers
    and the blank answer of game 15. *)
Definition createInitialAnswers : AnswersArray :=
  ((λ index : nat,
      Some {| Answer.matchNumber := Some (Z.of_nat index + 1)%Z;
              Answer.chosenWinner := Some "";
              Answer.isGame15 := Some false;
              Answer.goalsHomeTeam := Some "";
              Answer.goalsAwayTeam := Some "" |}) <$> seq 0 14)
  ++ [ Some {| Answer.matchNumber := Some 15%Z;
               Answer.chosenWinner := Some "";
               Answer.isGame15 := Some true;
               Answer.goalsHomeTeam := Some "";
               Answer.goalsAwayTeam := Some "" |} ].

(** *** Vocabulary of the statements *)

(** The slot a result for one of the slots 1 to 15 writes into the
    array [arr]: both assignments of the callback, taken together. *)
Definition written (quinipolo : Quinipolo.t) (arr : AnswersArray)
    (result : MatchResult.t) : Answer.t :=
  let matchIndex := (MatchResult.matchNumber result - 1)%Z in
  let base :=
    withWinner (spread (arrayGet arr (Z.to_nat matchIndex)))
      (MatchResult.matchNumber result)
      (chooseWinner quinipolo result (Z.to_nat matchIndex))
      (bool_decide (matchIndex = 14%Z)) in
  if decide (matchIndex = 14%Z)
  then withGoals base (scoreToGoalRange (effectiveScores result).1)
         (scoreToGoalRange (effectiveScores result).2)
  else base.

(** The two goal labels of a slot. *)
Definition goalsOf (slot : option Answer.t) : option string * option string :=
  (slot ≫= Answer.goalsHomeTeam, slot ≫= Answer.goalsAwayTeam).

(** A form whose fifteen matches all have the given game type. *)
Definition formOf (gameType : GameType) : Quinipolo.t :=
  {| Quinipolo.quinipolo :=
       replicate 15 {| Quinipolo.homeTeam := "Home"; Quinipolo.awayTeam := "Away";
                       Quinipolo.gameType := gameType |} |}.

(** The home goal label auto-fill writes for game 15 of such a form when
    the home side scored [score]. *)
Definition derivedGoalLabel (gameType : GameType) (score : Z) : option string :=
  arrayGet
    (applyAutoFillResults
       [ {| MatchResult.matchNumber := 15; MatchResult.outcome := "Home";
            MatchResult.homeScore := score; MatchResult.awayScore := 0;
            MatchResult.homeRegulationScore := None;
            MatchResult.awayRegulationScore := None |} ]
       [] (formOf gameType)) 14
  ≫= Answer.goalsHomeTeam.

(** The derivation as the specification words it, to be compared with
    [scoreToGoalRange]: three buckets, the inclusive bounds of the middle
    one being a parameter. *)
Inductive Bucket : Type := low | mid | high.

Record Thresholds : Type := { midFrom : Z; midTo : Z }.

Definition bucket_spec (thresholds : Thresholds) (score : Z) : Bucket :=
  if decide (score < midFrom thresholds)%Z then low
  else if decide (score <= midTo thresholds)%Z then mid
  else high.

(** The bucket a label of [scoreToGoalRange] stands for. *)
Definition bucketOfLabel (label : string) : option Bucket :=
  if decide (label = "-") then Some low
  else if decide (label = "11/12") then Some mid
  else if decide (label = "+") then Some high
  else None.

(** *** Example data *)

(** The shootout of the specification: 1-1 after regulation, reported
    for game 15. *)
Definition shootoutResult : MatchResult.t :=
  {| MatchResult.matchNumber := 15; MatchResult.outcome := "Tie (PEN)";
     MatchResult.homeScore := 1; MatchResult.awayScore := 1;
     MatchResult.homeRegulationScore := Some 1%Z;
     MatchResult.awayRegulationScore := Some 1%Z |}.

(** A shootout whose reported score counts the penalties: 11-11 after
    regulation, 14-13 in the end. *)
Definition longShootoutResult : MatchResult.t :=
  {| MatchResult.matchNumber := 15; MatchResult.outcome := "Tie (PEN)";
     MatchResult.homeScore := 14; MatchResult.awayScore := 13;
     MatchResult.homeRegulationScore := Some 11%Z;
     MatchResult.awayRegulationScore := Some 11%Z |}.

(** A home win reported for game 3, and a result for game 3 whose
    outcome names no team of the form. *)
Definition homeWinResult : MatchResult.t :=
  {| MatchResult.matchNumber := 3; MatchResult.outcome := "Home";
     MatchResult.homeScore := 9; MatchResult.awayScore := 7;
     MatchResult.homeRegulationScore := None;
     MatchResult.awayRegulationScore := None |}.

Definition strangerResult : MatchResult.t :=
  {| MatchResult.matchNumber := 3; MatchResult.outcome := "CN Somewhere";
     MatchResult.homeScore := 9; MatchResult.awayScore := 7;
     MatchResult.homeRegulationScore := None;
     MatchResult.awayRegulationScore := None |}.

(** Thresholds a caller could want: water polo as in the code, football
    with the middle range 2 to 3. *)
Definition thresholdsPerGameType (gameType : GameType) : Thresholds :=
  match gameType with
  | waterpolo => {| midFrom := 11; midTo := 12 |}
  | football => {| midFrom := 2; midTo := 3 |}
  end.

End AutoFill.

(** ** The result pipeline *)

Module Pipeline.

(** *** Promises, as far as the merge of the feeds uses them

    A promise is represented by the state it settles in; the fetchers
    run independently of each other, so the state of one does not depend
    on the other. *)

Inductive Promise (A : Type) : Type :=
| Fulfilled (value : A)
| Rejected (reason : string).
Arguments Fulfilled {A} value.
Arguments Rejected {A} reason.

(** [p.catch(onRejected)] *)
Definition catch {A : Type} (p : Promise A) (onRejected : string → Promise A)
    : Promise A :=
  match p with
  | Fulfilled value => Fulfilled value
  | Rejected reason => onRejected reason
  end.

(** [p.then(onFulfilled)], which is also what [await p] followed by the
    rest of an [async] function amounts to. *)
Definition then_ {A B : Type} (p : Promise A) (onFulfilled : A → Promise B)
    : Promise B :=
  match p with
  | Fulfilled value => onFulfilled value
  | Rejected reason => Rejected reason
  end.

(** [Promise.all(ps)]: fulfilled with all the values, in order, when every
    input is fulfilled; rejected when one input is (here with the reason
    of the leftmost such input). *)
Fixpoint Promise_all {A : Type} (ps : list (Promise A)) : Promise (list A) :=
  match ps with
  | [] => Fulfilled []
  | p :: rest =>
      match p with
      | Rejected reason => Rejected reason
      | Fulfilled value =>
          match Promise_all rest with
          | Rejected reason => Rejected reason
          | Fulfilled values => Fulfilled (value :: values)
          end
      end
  end.

(** *** Data model *)

(** Modelled from the spec: the maturity of a result (section 3); the
    types of the backend are not part of the repository. *)
Inductive Status : Type := scheduled | finished | aet | shootout.

#[global] Instance Status_eq_dec : EqDecision Status.
Proof. solve_decision. Defined.

(** Modelled from the spec: [RawResult], a single scraped match
    observation; a regulation score that is not populated is [None]. *)
Module RawResult.
Record t : Type := {
  sourceId : string;
  homeTeamRaw : string;
  awayTeamRaw : string;
  homeScore : Z;
  awayScore : Z;
  homeRegulationScore : option Z;
  awayRegulationScore : option Z;
  status : Status;
  kickoffTime : Z;
  isChampionsLeague : bool;
}.
End RawResult.

(** Modelled from the spec: [Question], one slot of the prediction
    form. *)
Module Question.
Record t : Type := {
  matchNumber : Z;
  homeTeam : string;
  awayTeam : string;
  gameType : string;
}.
End Question.

(** Modelled from the spec: the outcome categories. *)
Inductive MatchOutcome : Type := homeWin | awayWin | draw.

(** Modelled from the spec: a candidate pairs one question with one
    result; it names them by their positions in the two lists the engine
    was given. *)
Module MatchCandidate.
Record t : Type := {
  matchNumber : Z;
  questionIndex : nat;
  resultIndex : nat;
  confidence : Z;
  derivedOutcome : MatchOutcome;
  derivedGoalsHome : option AutoFill.Bucket;
  derivedGoalsAway : option AutoFill.Bucket;
}.
End MatchCandidate.

(** *** Source Aggregator *)

(** Modelled from the spec: the bodies of the two [.catch(...)] handlers,
    which the listing of [fetchLastWeekResults] elides.  A failure of a
    fetcher is caught and that source is excluded from the merged set,
    so the handler settles with no results. *)
Definition excludeSource (reason : string) : Promise (list RawResult.t) :=
  Fulfilled [].

(** The listed lines of [fetchLastWeekResults]:
    [const [flashscoreResults, championsLeagueResults] = await Promise.all([
       fetchFlashscoreResults().catch(...),
       fetchChampionsLeagueResults().catch(...) ]);
     const allResults = [...flashscoreResults, ...championsLeagueResults];]
    The arguments are the promises the two fetchers returned. *)
Definition fetchLastWeekResults_allResults
    (fetchFlashscoreResults fetchChampionsLeagueResults : Promise (list RawResult.t))
    : Promise (list RawResult.t) :=
  then_ (Promise_all [ catch fetchFlashscoreResults excludeSource;
                       catch fetchChampionsLeagueResults excludeSource ])
    (λ settled,
       match settled !! 0%nat, settled !! 1%nat with
       | Some flashscoreResults, Some championsLeagueResults =>
           Fulfilled (flashscoreResults ++ championsLeagueResults)
       | _, _ => Rejected "TypeError: undefined is not iterable"
       end).

(** Modelled from the spec: the same merge for any number of fetchers,
    the first step of [aggregate] (section 4.4). *)
Definition mergeSources (fetchers : list (Promise (list RawResult.t)))
    : Promise (list RawResult.t) :=
  then_ (Promise_all ((λ p, catch p excludeSource) <$> fetchers))
    (λ settled, Fulfilled (concat settled)).

(** What a fetcher contributes once its failure has been caught. *)
Definition contribution (p : Promise (list RawResult.t)) : list RawResult.t :=
  match p with
  | Fulfilled results => results
  | Rejected _ => []
  end.

(** What the fetchers that did not fail delivered, in order. *)
Definition delivered (fetchers : list (Promise (list RawResult.t)))
    : list RawResult.t :=
  concat (omap (λ p, match p with
                     | Fulfilled results => Some results
                     | Rejected _ => None
                     end) fetchers).

Section Engine.

(** The tuning the specification leaves to the caller. *)
Variable normalize : string → string.
Variable similarity : string → string → Z.
Variable threshold : bool → Z.
Variable similarityFloor : Z.
Variable thresholds : string → AutoFill.Thresholds.
Variable dayLength : Z.

(** *** Date Window Filter and de-duplication *)

(** Modelled from the spec: results are filtered to
    [kickoffTime >= now - windowDays] and [status != scheduled];
    [dayLength] is the length of a day in the unit of the timestamps. *)
Definition dateWindowFilter (now windowDays : Z) (results : list RawResult.t)
    : list RawResult.t :=
  filter (λ r, (RawResult.kickoffTime r >= now - windowDays * dayLength)%Z
               ∧ RawResult.status r ≠ scheduled) results.

(** Modelled from the spec: two records report the same fixture when
    they have the same normalized team pair and the same day. *)
Definition sameFixture (r1 r2 : RawResult.t) : Prop :=
  normalize (RawResult.homeTeamRaw r1) = normalize (RawResult.homeTeamRaw r2)
  ∧ normalize (RawResult.awayTeamRaw r1) = normalize (RawResult.awayTeamRaw r2)
  ∧ (RawResult.kickoffTime r1 `div` dayLength
     = RawResult.kickoffTime r2 `div` dayLength)%Z.

#[local] Instance sameFixture_dec r1 r2 : Decision (sameFixture r1 r2).
Proof. unfold sameFixture. apply _. Defined.

(** Modelled from the spec: a record is more complete with status [aet]
    or [shootout] than with [finished], and with both regulation scores
    than without. *)
Definition completeness (r : RawResult.t) : nat :=
  (if decide (RawResult.status r = aet ∨ RawResult.status r = shootout)
   then 1 else 0)
  + (if decide (is_Some (RawResult.homeRegulationScore r)
                ∧ is_Some (RawResult.awayRegulationScore r))
     then 1 else 0).

(** Modelled from the spec: of two records of one fixture the more
    complete one is kept. *)
Fixpoint keepMoreComplete (kept : list RawResult.t) (r : RawResult.t)
    : list RawResult.t :=
  match kept with
  | [] => [r]
  | k :: rest =>
      if decide (sameFixture k r)
      then (if decide (completeness k < completeness r) then r else k) :: rest
      else k :: keepMoreComplete rest r
  end.

(** Modelled from the spec: the de-duplication of a merged list, one
    record after the other. *)
Definition dedupe (results : list RawResult.t) : list RawResult.t :=
  foldl keepMoreComplete [] results.

(** Modelled from the spec: [aggregate(fetchers, windowDays)] -- merge,
    filter, de-duplicate; [now] is the reading of the clock. *)
Definition aggregate (fetchers : list (Promise (list RawResult.t)))
    (now windowDays : Z) : Promise (list RawResult.t) :=
  then_ (mergeSources fetchers)
    (λ merged, Fulfilled (dedupe (dateWindowFilter now windowDays merged))).

(** *** Outcome Resolver *)

(** Modelled from the spec: [resolve(result)] of section 4.2. *)
Definition resolve (result : RawResult.t) : MatchOutcome * Z * Z :=
  match RawResult.status result,
        RawResult.homeRegulationScore result,
        RawResult.awayRegulationScore result with
  | shootout, Some homeRegulation, Some awayRegulation =>
      (draw, homeRegulation, awayRegulation)
  | _, _, _ =>
      let home := RawResult.homeScore result in
      let away := RawResult.awayScore result in
      (if decide (home > away)%Z then homeWin
       else if decide (home < away)%Z then awayWin
       else draw, home, away)
  end.

(** *** Matching Engine *)

(** Modelled from the spec: a surviving (question, result) pair with its
    confidence. *)
Record Pair : Type := {
  pQuestionIndex : nat;
  pQuestion : Question.t;
  pResultIndex : nat;
  pResult : RawResult.t;
  pConfidence : Z;
}.

(** Modelled from the spec: a question with an empty team name is
    malformed; its slot is skipped. *)
Definition validQuestion (q : Question.t) : Prop :=
  Question.homeTeam q ≠ "" ∧ Question.awayTeam q ≠ "".

#[local] Instance validQuestion_dec q : Decision (validQuestion q).
Proof. unfold validQuestion. apply _. Defined.

(** Modelled from the spec: steps 1 and 2 of the algorithm of section
    4.3 for one pair -- both similarities clear the floor, the confidence
    is their average and reaches the threshold of the result's tier. *)
Definition pairConfidence (q : Question.t) (r : RawResult.t) : option Z :=
  let homeScore :=
    similarity (normalize (RawResult.homeTeamRaw r)) (normalize (Question.homeTeam q)) in
  let awayScore :=
    similarity (normalize (RawResult.awayTeamRaw r)) (normalize (Question.awayTeam q)) in
  let confidence := ((homeScore + awayScore) `div` 2)%Z in
  if decide (similarityFloor <= homeScore ∧ similarityFloor <= awayScore)%Z
  then if decide (threshold (RawResult.isChampionsLeague r) <= confidence)%Z
       then Some confidence
       else None
  else None.

(** Modelled from the spec: the surviving pairs of one question. *)
Definition pairsOfQuestion (results : list RawResult.t) (qi : nat) (q : Question.t)
    : list Pair :=
  if decide (validQuestion q)
  then omap id (imap (λ ri r,
         (λ confidence,
            {| pQuestionIndex := qi; pQuestion := q; pResultIndex := ri;
               pResult := r; pConfidence := confidence |})
         <$> pairConfidence q r) results)
  else [].

(** Modelled from the spec: the surviving pairs of the whole form. *)
Definition survivingPairs (questions : list Question.t) (results : list RawResult.t)
    : list Pair :=
  concat (imap (pairsOfQuestion results) questions).

(** Modelled from the spec: a pair goes first with the higher confidence
    and, at equal confidence, with the earlier kickoff time. *)
Definition better (p1 p2 : Pair) : bool :=
  (pConfidence p2 <? pConfidence p1)%Z
  || ((pConfidence p1 =? pConfidence p2)%Z
      && (RawResult.kickoffTime (pResult p1) <? RawResult.kickoffTime (pResult p2))%Z).

(** Modelled from the spec: the pair that goes first among [pairs]
    (the leftmost one when several go equally far ahead). *)
Fixpoint best (pairs : list Pair) : option Pair :=
  match pairs with
  | [] => None
  | p :: rest =>
      match best rest with
      | Some b => if better b p then Some b else Some p
      | None => Some p
      end
  end.

(** Modelled from the spec: a pair is still open once [p] is bound when
    it shares neither the question nor the result of [p]. *)
Definition unbound (p x : Pair) : Prop :=
  pQuestionIndex x ≠ pQuestionIndex p ∧ pResultIndex x ≠ pResultIndex p.

#[local] Instance unbound_dec p x : Decision (unbound p x).
Proof. unfold unbound. apply _. Defined.

(** A value together with the equation that it is that value. *)
Definition inspect {A : Type} (x : A) : { y : A | x = y } := exist _ x eq_refl.

(** Modelled from the spec: step 3 -- take the pair that goes first, bind
    its question and its result, drop every pair that shares one of
    them, and repeat until no pair is left. *)
Equations? assign (pairs : list Pair) : list Pair by wf (length pairs) lt :=
  assign pairs with inspect (best pairs) := {
    | exist _ None _ => [];
    | exist _ (Some p) Hbest => p :: assign (filter (unbound p) pairs) }.
Proof.
  assert (p ∈ pairs) as Hin.
  { clear assign. revert p Hbest.
    induction pairs as [| x rest IH]; intros p; simpl; [done |].
    destruct (best rest) as [b |]; [destruct (better b x) |]; intros [= <-];
      first [ apply list_elem_of_here | apply list_elem_of_further; by apply IH ]. }
  clear assign Hbest.
  induction pairs as [| x rest IH]; [by apply elem_of_nil in Hin |].
  rewrite filter_cons. apply elem_of_cons in Hin as [<- | Hin].
  - destruct (decide (unbound p p)) as [[Hq _] | _]; [done |].
    simpl. pose proof (length_filter (unbound p) rest). lia.
  - specialize (IH Hin). destruct (decide (unbound p x)); simpl; lia.
Qed.

(** Modelled from the spec: the candidate a bound pair becomes; the goal
    buckets are filled in for the last slot of the form only, from the
    effective scores and the thresholds of the question's game type. *)
Definition candidateOf (slots : nat) (p : Pair) : MatchCandidate.t :=
  let '(outcome, effectiveHome, effectiveAway) := resolve (pResult p) in
  let bonus := bool_decide (pQuestionIndex p + 1 = slots) in
  let bucketOf score :=
    if bonus
    then Some (AutoFill.bucket_spec (thresholds (Question.gameType (pQuestion p))) score)
    else None in
  {| MatchCandidate.matchNumber := Question.matchNumber (pQuestion p);
     MatchCandidate.questionIndex := pQuestionIndex p;
     MatchCandidate.resultIndex := pResultIndex p;
     MatchCandidate.confidence := pConfidence p;
     MatchCandidate.derivedOutcome := outcome;
     MatchCandidate.derivedGoalsHome := bucketOf effectiveHome;
     MatchCandidate.derivedGoalsAway := bucketOf effectiveAway |}.

(** Modelled from the spec: [match(questions, results, threshold)]. *)
Definition match_ (questions : list Question.t) (results : list RawResult.t)
    : list MatchCandidate.t :=
  candidateOf (length questions) <$> assign (survivingPairs questions results).

(** Modelled from the spec: the slots reported as [InvalidQuestion]. *)
Definition invalidQuestions (questions : list Question.t) : list Z :=
  Question.matchNumber <$> filter (λ q, ¬ validQuestion q) questions.

(** Modelled from the spec: the data flow of section 2 -- aggregate,
    then match the questions against the snapshot. *)
Definition pipeline (fetchers : list (Promise (list RawResult.t)))
    (now windowDays : Z) (questions : list Question.t)
    : Promise (list MatchCandidate.t) :=
  then_ (aggregate fetchers now windowDays)
    (λ snapshot, Fulfilled (match_ questions snapshot)).

End Engine.

(** *** Vocabulary of the statements *)

(** The result the front end receives for a raw result: the scores are
    carried over, and the outcome is ["Tie (PEN)"] exactly when the match
    went to a shootout. *)
Definition rendersAs (raw : RawResult.t) (result : AutoFill.MatchResult.t) : Prop :=
  (RawResult.status raw = shootout
   ↔ AutoFill.MatchResult.outcome result = "Tie (PEN)")
  ∧ AutoFill.MatchResult.homeScore result = RawResult.homeScore raw
  ∧ AutoFill.MatchResult.awayScore result = RawResult.awayScore raw
  ∧ AutoFill.MatchResult.homeRegulationScore result = RawResult.homeRegulationScore raw
  ∧ AutoFill.MatchResult.awayRegulationScore result = RawResult.awayRegulationScore raw.

(** *** Example data *)

(** The simplest tuning: names compared as they are, 100 for equal names
    and 0 otherwise, a floor of 40, thresholds 60 (Champions League) and
    50, timestamps in seconds. *)
Definition exactSimilarity (a b : string) : Z :=
  if decide (a = b) then 100 else 0.

Definition tierThreshold (isChampionsLeague : bool) : Z :=
  if isChampionsLeague then 60 else 50.

Definition waterpoloThresholds (gameType : string) : AutoFill.Thresholds :=
  {| AutoFill.midFrom := 11; AutoFill.midTo := 12 |}.

Definition exampleQuestions : list Question.t :=
  [ {| Question.matchNumber := 1; Question.homeTeam := "Barcelona";
       Question.awayTeam := "Sabadell"; Question.gameType := "waterpolo" |};
    {| Question.matchNumber := 2; Question.homeTeam := "Terrassa";
       Question.awayTeam := "Mataro"; Question.gameType := "waterpolo" |} ].

Definition exampleResult (home away : string) (homeGoals awayGoals : Z)
    (status : Status) (kickoffTime : Z) : RawResult.t :=
  {| RawResult.sourceId := "flashscore";
     RawResult.homeTeamRaw := home; RawResult.awayTeamRaw := away;
     RawResult.homeScore := homeGoals; RawResult.awayScore := awayGoals;
     RawResult.homeRegulationScore := None; RawResult.awayRegulationScore := None;
     RawResult.status := status; RawResult.kickoffTime := kickoffTime;
     RawResult.isChampionsLeague := false |}.

(** One feed delivers a fixture still to be played, the same fixture as
    played three days ago, and a second fixture; the other feed fails. *)
Definition exampleFetchers : list (Promise (list RawResult.t)) :=
  [ Fulfilled [ exampleResult "Barcelona" "Sabadell" 0 0 scheduled 990000;
                exampleResult "Barcelona" "Sabadell" 10 8 finished 740000;
                exampleResult "Terrassa" "Mataro" 12 13 finished 750000 ];
    Rejected "timeout" ].

End Pipeline.

(** ** scripts/validate-translations.js, the rest of the script *)

Module TranslationsScript.
Import Translations.

(** The report [validateTranslationSet] prints when [hasErrors]: the
    innermost loop of "Show which locales have extra keys" -- [key] is
    found in all the other locales of the map. *)
Definition foundInAll (translations : gmap string (gset string))
    (locale key : string) : Prop :=
  map_Forall (λ otherLocale otherKeys, otherLocale = locale ∨ key ∈ otherKeys)
    translations.

(** The [extra] array of one locale. *)
Definition extraIn (translations : gmap string (gset string))
    (locale : string) (keys : gset string) : list string :=
  filter (λ key, ¬ foundInAll translations locale key) (elements keys).

(** What the run prints under "Missing keys in" and under "Extra keys
    in", per locale; nothing when the files cannot all be read. *)
Definition printedReport (fs : gmap string jobject) (files : list TranslationFile)
    : option (gmap string (list string) * gmap string (list string)) :=
  match readAll fs files ∅ ∅ with
  | ProcessExit _ => None
  | Returns (translations, allKeys) =>
      let '(hasErrors, missingKeys) := checkLocales translations allKeys in
      if hasErrors
      then Some (missingKeys,
                 filter (λ entry, entry.2 ≠ [])
                   (map_imap (λ locale keys, Some (extraIn translations locale keys))
                      translations))
      else None
  end.

(** An entry of a directory, as [readdirSync] with [withFileTypes]
    returns it. *)
Record Dirent : Type := { name : string; isDirectory : bool }.

(** The file system the script looks at: what exists, what a directory
    lists ([None] where [readdirSync] throws), and what the translation
    files parse to. *)
Record FileSystem : Type := {
  existsSync : string → bool;
  readdirSync : string → option (list Dirent);
  parsed : gmap string jobject;
}.

(** [m >>= f] for calls that may end the process. *)
Definition andThen {A B : Type} (m : Outcome A) (f : A → Outcome B) : Outcome B :=
  match m with
  | Returns a => f a
  | ProcessExit code => ProcessExit code
  end.

Section Script.

(** [path.join] of Node, and [path.resolve(__dirname, '..')]. *)
Variable join : list string → string.
Variable projectRoot : string.

(** [findTranslationFiles(baseDir)].  An exception of [readdirSync] is
    not caught anywhere; it ends the process with code 1. *)
Definition findTranslationFiles (fs : FileSystem) (baseDir : string)
    : Outcome (list TranslationFile) :=
  if negb (existsSync fs baseDir) then Returns []
  else
    match readdirSync fs baseDir with
    | None => ProcessExit 1
    | Some locales =>
        Returns (omap (λ entry,
                   let translationPath := join [baseDir; name entry; "translation.json"] in
                   if isDirectory entry && existsSync fs translationPath
                   then Some {| locale := name entry; path := translationPath |}
                   else None) locales)
    end.

(** One of the two "Validate ... translations" blocks. *)
Definition validateIfAny (fs : FileSystem) (files : list TranslationFile)
    (setName : string) : Outcome unit :=
  if decide (0 < length files)
  then andThen (validateTranslationSet (parsed fs) files setName)
         (λ valid, if valid then Returns tt else ProcessExit 1)
  else Returns tt.

(** [validateTranslations()]. *)
Definition validateTranslations (fs : FileSystem) : Outcome unit :=
  let feLocalesDir := join [projectRoot; "quinipolo-fe"; "src"; "locales"] in
  let mobileLocalesDir := join [projectRoot; "quinipolo-mobile"; "src"; "locales"] in
  andThen (findTranslationFiles fs feLocalesDir) (λ feFiles,
  andThen (findTranslationFiles fs mobileLocalesDir) (λ mobileFiles,
    if decide (length feFiles = 0 ∧ length mobileFiles = 0) then ProcessExit 1
    else
      andThen (validateIfAny fs feFiles "Frontend") (λ _,
      andThen (validateIfAny fs mobileFiles "Mobile") (λ _,
        Returns tt)))).

End Script.

(** *** Example data *)

(** A [path.join] for the examples: the parts joined by slashes. *)
Definition simpleJoin (parts : list string) : string := String.concat "/" parts.

(** A front end with the two locales of [exampleFs] and a stray file;
    no mobile directory. *)
Definition exampleDisk : FileSystem :=
  {| existsSync := λ p,
       bool_decide (p ∈ [ "/repo/quinipolo-fe/src/locales";
                          "/repo/quinipolo-fe/src/locales/en/translation.json";
                          "/repo/quinipolo-fe/src/locales/es/translation.json" ]);
     readdirSync := λ p,
       if decide (p = "/repo/quinipolo-fe/src/locales")
       then Some [ {| name := "en"; isDirectory := true |};
                   {| name := "es"; isDirectory := true |};
                   {| name := "README.md"; isDirectory := false |} ]
       else None;
     parsed :=
       {[ "/repo/quinipolo-fe/src/locales/en/translation.json" := enTranslation;
          "/repo/quinipolo-fe/src/locales/es/translation.json" := esTranslation ]} |}.

(** Two locales that differ: [es] lacks [subtitle]. *)
Definition unsyncedFs : gmap string jobject :=
  {[ "locales/en/translation.json" :=
       OCons "title" (JStr "Hello") (OCons "subtitle" (JStr "Hi") ONil);
     "locales/es/translation.json" := OCons "title" (JStr "Hola") ONil ]}.

End TranslationsScript.

(** ** The answers form: utils/answerUtils.ts, utils/validationUtils.ts,
       hooks/useAnswerHandlers.ts, hooks/useAnswerSubmission.ts *)

Module AnswersForm.
Import AutoFill.

(** Truthiness of a string property: [undefined] and [""] are falsy. *)
Definition truthy (s : option string) : bool :=
  match s with
  | Some s => bool_decide (s ≠ "")
  | None => false
  end.

(** [s || ""] *)
Definition orEmpty (s : option string) : string :=
  match s with
  | Some s => if bool_decide (s ≠ "") then s else ""
  | None => ""
  end.

(** The test of the callback of [findMissingAnswers] for the answer at
    index [idx]. *)
Definition isMissingAt (idx : nat) (ans : Answer.t) : bool :=
  if decide (idx = 14) then
    let isWinnerMissing := negb (truthy (Answer.chosenWinner ans)) in
    let areGoalsMissing :=
      negb (truthy (Answer.goalsHomeTeam ans) && truthy (Answer.goalsAwayTeam ans)) in
    isWinnerMissing || (negb isWinnerMissing && areGoalsMissing)
  else negb (truthy (Answer.chosenWinner ans)).

(** [findMissingAnswers(answers)], for an array without empty slots:
    [forEach] visits the answers in order, the callback pushes the index
    of an answer that is missing. *)
Definition findMissingAnswers (answers : list Answer.t) : list nat :=
  (foldl (λ '(missing, idx) ans,
            (if isMissingAt idx ans then missing ++ [idx] else missing, S idx))
     ([], 0) answers).1.

(** [prepareAnswersForSubmission(answers)]; the objects it builds have
    no [isGame15], and goals for index 14 only. *)
Definition prepareAnswersForSubmission (answers : list Answer.t) : list Answer.t :=
  imap (λ index answer,
      let baseAnswer :=
        {| Answer.matchNumber := Some (Z.of_nat index + 1)%Z;
           Answer.chosenWinner := Answer.chosenWinner answer;
           Answer.isGame15 := None;
           Answer.goalsHomeTeam := None;
           Answer.goalsAwayTeam := None |} in
      if decide (index = 14)
      then {| Answer.matchNumber := Answer.matchNumber baseAnswer;
              Answer.chosenWinner := Answer.chosenWinner baseAnswer;
              Answer.isGame15 := Answer.isGame15 baseAnswer;
              Answer.goalsHomeTeam := Answer.goalsHomeTeam answer;
              Answer.goalsAwayTeam := Answer.goalsAwayTeam answer |}
      else baseAnswer) answers.

(** [mapCorrectAnswersToInitial(correctAnswers, initialAnswers)] *)
Definition mapCorrectAnswersToInitial (correctAnswers initialAnswers : list Answer.t)
    : list Answer.t :=
  imap (λ index defaultAnswer,
      match List.find (λ ca, bool_decide (Answer.matchNumber ca
                                          = Some (Z.of_nat index + 1)%Z))
              correctAnswers with
      | Some correctAnswer =>
          {| Answer.matchNumber := Answer.matchNumber defaultAnswer;
             Answer.chosenWinner := Some (orEmpty (Answer.chosenWinner correctAnswer));
             Answer.isGame15 := Answer.isGame15 defaultAnswer;
             Answer.goalsHomeTeam := Some (orEmpty (Answer.goalsHomeTeam correctAnswer));
             Answer.goalsAwayTeam := Some (orEmpty (Answer.goalsAwayTeam correctAnswer)) |}
      | None => defaultAnswer
      end) initialAnswers.

(** [s.split("__")]: the part before the first separator and the parts
    after it. *)
Fixpoint split__ (s : string) : string * list string :=
  match s with
  | EmptyString => (EmptyString, [])
  | String c rest =>
      match rest with
      | String c' rest' =>
          if decide (String c (String c' EmptyString) = "__")
          then let '(part, parts) := split__ rest' in (EmptyString, part :: parts)
          else let '(part, parts) := split__ rest in (String c part, parts)
      | EmptyString => (String c EmptyString, [])
      end
  end.

(** The two pieces of state the handlers of the form write. *)
Record FormState : Type := {
  answers : AnswersArray;
  missingAnswerIndices : list nat;
}.

(** [handleGame15Change(event, newValue)]: the state after the updater
    passed to [setAnswers] has run, with the call of
    [setMissingAnswerIndices] it makes. *)
Definition handleGame15Change (seeUserAnswersModeOn : option bool)
    (viewOnlyModeOn : option string)
    (newValue : option string) (state : FormState) : FormState :=
  match newValue with
  | None => state
  | Some newValue =>
      if default false seeUserAnswersModeOn || truthy viewOnlyModeOn then state
      else
        let '(goalValue, rest) := split__ newValue in
        let team := rest !! 0 in
        let prevAnswers := answers state in
        let slot := spread (arrayGet prevAnswers 14) in
        let updatedData :=
          if decide (team = Some "home")
          then arraySet prevAnswers 14
                 {| Answer.matchNumber := Some 15%Z;
                    Answer.chosenWinner := Answer.chosenWinner slot;
                    Answer.isGame15 := Answer.isGame15 slot;
                    Answer.goalsHomeTeam := Some goalValue;
                    Answer.goalsAwayTeam := Answer.goalsAwayTeam slot |}
          else arraySet prevAnswers 14
                 {| Answer.matchNumber := Some 15%Z;
                    Answer.chosenWinner := Answer.chosenWinner slot;
                    Answer.isGame15 := Answer.isGame15 slot;
                    Answer.goalsHomeTeam := Answer.goalsHomeTeam slot;
                    Answer.goalsAwayTeam := Some goalValue |} in
        let bothGoalsSelected :=
          truthy (arrayGet updatedData 14 ≫= Answer.goalsHomeTeam)
          && truthy (arrayGet updatedData 14 ≫= Answer.goalsAwayTeam) in
        {| answers := updatedData;
           missingAnswerIndices :=
             if bothGoalsSelected
             then filter (λ i, i ≠ 14) (missingAnswerIndices state)
             else missingAnswerIndices state |}
  end.

(** What [submitQuinipolo] does before any request is sent: it warns
    about the missing answers (with their match numbers, and the row to
    scroll to) or goes on with the answers to submit. *)
Inductive SubmitStep : Type :=
| WarnMissing (missing : list nat) (matches : list nat) (firstMissing : option nat)
| Submit (answersToSubmit : list Answer.t).

Definition submitQuinipolo_step (answers : list Answer.t) : SubmitStep :=
  let missing := findMissingAnswers answers in
  if decide (0 < length missing)
  then WarnMissing missing ((λ i, i + 1) <$> missing) (missing !! 0)
  else Submit (prepareAnswersForSubmission answers).

(** *** Vocabulary of the statements *)

(** The answers of [createInitialAnswers()], none of its slots being
    empty. *)
Definition initialAnswers : list Answer.t := omap id createInitialAnswers.

(** The outcome of a result is one auto-fill recognises for the slot it
    addresses: a tie, or the non-empty name of a team of the question. *)
Definition recognised (quinipolo : Quinipolo.t) (result : MatchResult.t) : Prop :=
  MatchResult.outcome result = "Tie"
  ∨ MatchResult.outcome result = "Tie (PEN)"
  ∨ ∃ quinipoloMatch,
      Quinipolo.quinipolo quinipolo !! Z.to_nat (MatchResult.matchNumber result - 1)
      = Some quinipoloMatch
      ∧ MatchResult.outcome result ≠ ""
      ∧ (MatchResult.outcome result = Quinipolo.homeTeam quinipoloMatch
         ∨ MatchResult.outcome result = Quinipolo.awayTeam quinipoloMatch).

(** A winner auto-fill may write into slot [j]. *)
Definition writableWinner (quinipolo : Quinipolo.t) (j : nat) (winner : option string)
    : Prop :=
  winner = Some "empat" ∨ winner = Some ""
  ∨ ∃ quinipoloMatch,
      Quinipolo.quinipolo quinipolo !! j = Some quinipoloMatch
      ∧ (winner = Some (Quinipolo.homeTeam quinipoloMatch)
         ∨ winner = Some (Quinipolo.awayTeam quinipoloMatch)).

(** Every answer of the array carries the number of its slot and the
    flag of game 15. *)
Definition wellNumbered (arr : AnswersArray) : Prop :=
  ∀ j slot, arrayGet arr j = Some slot →
    Answer.matchNumber slot = Some (Z.of_nat j + 1)%Z
    ∧ Answer.isGame15 slot = Some (bool_decide (j = 14)).

(** What is loaded back for the answer at [index] after it was
    submitted as a correction. *)
Definition reloaded (index : nat) (answer : Answer.t) : Answer.t :=
  {| Answer.matchNumber := Some (Z.of_nat index + 1)%Z;
     Answer.chosenWinner := Some (orEmpty (Answer.chosenWinner answer));
     Answer.isGame15 := Some (bool_decide (index = 14));
     Answer.goalsHomeTeam :=
       Some (if decide (index = 14) then orEmpty (Answer.goalsHomeTeam answer) else "");
     Answer.goalsAwayTeam :=
       Some (if decide (index = 14) then orEmpty (Answer.goalsAwayTeam answer) else "") |}.

(** No underscore in the string. *)
Fixpoint underscoreFree (s : string) : Prop :=
  match s with
  | EmptyString => True
  | String c rest => String c EmptyString ≠ "_" ∧ underscoreFree rest
  end.

(** *** Example data *)

(** A result for each of the fifteen matches: ties, but a home win for
    game 2 and a shootout for game 15. *)
Definition fullRound : list MatchResult.t :=
  (λ n : nat,
     {| MatchResult.matchNumber := Z.of_nat n;
        MatchResult.outcome :=
          if decide (n = 2) then "Home" else if decide (n = 15) then "Tie (PEN)" else "Tie";
        MatchResult.homeScore := 12; MatchResult.awayScore := 12;
        MatchResult.homeRegulationScore := if decide (n = 15) then Some 11%Z else None;
        MatchResult.awayRegulationScore := if decide (n = 15) then Some 11%Z else None |})
  <$> seq 1 15.

End AnswersForm.

(** * Part II: properties *)

(** ** Keys of a translation object *)

Module TranslationsFacts.
Import Translations.

Lemma leafAt_cons_inv key value rest path :
  leafAt (OCons key value rest) path ↔
    (isNested value = false ∧ path = [key])
    ∨ (∃ nested tl, value = JObj nested ∧ path = key :: tl ∧ leafAt nested tl)
    ∨ leafAt rest path.
Proof.
  split.
  - inversion 1 as [o k v Hin Hleaf | o k nested tl Hin Hsub]; subst; simpl in Hin;
      apply elem_of_cons in Hin as [Heq | Hin].
    + inversion Heq; subst. by left.
    + right; right. by eapply leaf_here.
    + inversion Heq; subst. right; left. eauto.
    + right; right. by eapply leaf_below.
  - intros [[Hleaf ->] | [(nested & tl & -> & -> & Hsub) | Hrest]].
    + eapply leaf_here; [apply list_elem_of_here | done].
    + eapply leaf_below; [apply list_elem_of_here | done].
    + inversion Hrest; subst.
      * eapply leaf_here; [by apply list_elem_of_further | done].
      * eapply leaf_below; [by apply list_elem_of_further | done].
Qed.

(** The keys [extractKeys] returns are exactly the keys built along the
    paths to the values that are not nested objects. *)
Lemma extractKeys_spec obj :
  ∀ prefix k,
    k ∈ extractKeys obj prefix ↔ ∃ path, leafAt obj path ∧ k = joinPath prefix path.
Proof.
  induction obj as [ | | | | | o IHo | | key value IHvalue rest IHrest ]
    using jobject_mut
    with (P := λ v, match v with
                    | JObj o => ∀ prefix k, k ∈ extractKeys o prefix ↔
                                  ∃ path, leafAt o path ∧ k = joinPath prefix path
                    | _ => True
                    end); try done.
  - intros prefix k. simpl. split; [by rewrite elem_of_empty |].
    intros (path & Hleaf & _). inversion Hleaf; subst; simpl in *;
      match goal with H : _ ∈ [] |- _ => by apply elem_of_nil in H end.
  - intros prefix k. cbn [extractKeys]. rewrite elem_of_union, IHrest.
    setoid_rewrite leafAt_cons_inv.
    destruct value; simpl in IHvalue;
      try (rewrite elem_of_singleton; split;
           [ intros [-> | (path & Hleaf & ->)];
             [ exists [key]; split; [by left | done] | exists path; eauto ]
           | intros (path & [[_ ->] | [(nested & tl & Heq & _) | Hleaf]] & ->);
             [ by left | discriminate Heq | right; eauto ] ]).
    rewrite IHvalue. split.
    + intros [(path & Hleaf & ->) | (path & Hleaf & ->)].
      * exists (key :: path). split; [right; left; eauto | done].
      * exists path; eauto.
    + intros (path & [[Hn _] | [(nested & tl & Heq & -> & Hleaf) | Hleaf]] & ->).
      * discriminate Hn.
      * inversion Heq; subst. left. eauto.
      * right; eauto.
Qed.

(** An array is a leaf: none of its elements is visited. *)
Lemma extractKeys_array key items rest prefix :
  extractKeys (OCons key (JArr items) rest) prefix
  = {[ fullKeyOf prefix key ]} ∪ extractKeys rest prefix.
Proof. reflexivity. Qed.

(** [null] is a leaf. *)
Lemma extractKeys_null key rest prefix :
  extractKeys (OCons key JNull rest) prefix
  = {[ fullKeyOf prefix key ]} ∪ extractKeys rest prefix.
Proof. reflexivity. Qed.

(** A key whose value is the empty object contributes nothing. *)
Lemma extractKeys_empty_object key rest prefix :
  extractKeys (OCons key (JObj ONil) rest) prefix = extractKeys rest prefix.
Proof. simpl. apply leibniz_equiv. by rewrite (left_id ∅ (∪)). Qed.

Lemma append_assoc (s1 s2 s3 : string) : (s1 +:+ s2) +:+ s3 = s1 +:+ s2 +:+ s3.
Proof.
  induction s1 as [| c s1 IH]; [done |].
  change (String c ((s1 +:+ s2) +:+ s3) = String c (s1 +:+ s2 +:+ s3)). by f_equal.
Qed.

Lemma append_nil_r (s : string) : s +:+ "" = s.
Proof.
  induction s as [| c s IH]; [done |].
  change (String c (s +:+ "") = String c s). by f_equal.
Qed.

Lemma append_dot_nonempty (s1 s2 : string) : s1 +:+ "." +:+ s2 ≠ "".
Proof. by destruct s1. Qed.

Lemma dotJoin_cons key path :
  dotJoin (key :: path) = if decide (path = []) then key else key +:+ "." +:+ dotJoin path.
Proof. destruct path; reflexivity. Qed.

Lemma joinPath_nonempty_prefix path :
  ∀ prefix, prefix ≠ "" → joinPath prefix path = dotJoin (prefix :: path).
Proof.
  induction path as [| key rest IH]; intros prefix Hne; [done |].
  unfold joinPath in *. simpl foldl. unfold fullKeyOf at 2.
  destruct (decide (prefix = "")) as [| _]; [done |].
  rewrite IH by apply append_dot_nonempty.
  rewrite !dotJoin_cons. destruct (decide (key :: rest = [])) as [| _]; [done |].
  destruct (decide (rest = [])) as [-> | _]; [done |].
  by rewrite !append_assoc.
Qed.

(** Along a path whose first key is not empty the code builds the
    dot-notation of the path. *)
Lemma joinPath_dotJoin key path :
  key ≠ "" → joinPath "" (key :: path) = dotJoin (key :: path).
Proof.
  intros Hne. change (joinPath key path = dotJoin (key :: path)).
  by apply joinPath_nonempty_prefix.
Qed.

(** Leading empty keys leave no trace in the key the code builds. *)
Lemma joinPath_empty_key path : joinPath "" ("" :: path) = joinPath "" path.
Proof. reflexivity. Qed.

Lemma leafAt_head obj path :
  leafAt obj path → ∃ key tl, path = key :: tl ∧ key ∈ (entries obj).*1.
Proof.
  inversion 1 as [o k v Hin _ | o k nested tl Hin _]; subst; eexists _, _;
    (split; [done |]); apply list_elem_of_fmap; eexists; (split; [| exact Hin]); done.
Qed.

(** For an object without an empty key at its top level, the keys
    returned are the dot-notations of the leaf paths. *)
Lemma extractKeys_dot_notation obj k :
  "" ∉ (entries obj).*1 →
  k ∈ extractKeys obj "" ↔ ∃ path, leafAt obj path ∧ k = dotJoin path.
Proof.
  intros Htop. rewrite extractKeys_spec. split; intros (path & Hleaf & ->);
    exists path; (split; [done |]);
    destruct (leafAt_head _ _ Hleaf) as (key & tl & -> & Hkey);
    [ | symmetry ]; apply joinPath_dotJoin; intros ->; done.
Qed.

(** C9 (the code departs from the claim): the object [{"": {"a": 1}}]
    has one leaf, at the path of the two keys [""] and ["a"], whose
    dot-notation is [".a"]; [extractKeys] returns the key ["a"] for it,
    the key it also returns for [{"a": 1}]. *)
Theorem extractKeys_empty_key_not_dot_joined :
  leafAt emptyKeyObject [""; "a"]
  ∧ (dotJoin [""; "a"] = ".a")
  ∧ (extractKeys emptyKeyObject "" = {[ "a" ]})
  ∧ (dotJoin [""; "a"] ∉ extractKeys emptyKeyObject "")
  ∧ (extractKeys emptyKeyObject "" = extractKeys (OCons "a" (JNum 1) ONil) "").
Proof.
  unfold emptyKeyObject. simpl. split; [| split; [| split; [| split]]].
  - eapply leaf_below; [apply list_elem_of_here |].
    eapply leaf_here; [apply list_elem_of_here | done].
  - reflexivity.
  - by vm_compute.
  - rewrite elem_of_union, elem_of_union, elem_of_singleton.
    intros [[Heq | Hin] | Hin]; [discriminate Heq | |]; by apply elem_of_empty in Hin.
  - by vm_compute.
Qed.

(** *** validateTranslationSet *)

Lemma missingIn_nil allKeys keys : missingIn allKeys keys = [] ↔ allKeys ⊆ keys.
Proof.
  unfold missingIn. split.
  - intros Hnil k Hk. destruct (decide (k ∈ keys)) as [| Hn]; [done |].
    assert (k ∈ filter (λ key, key ∉ keys) (elements allKeys)) as Hin.
    { apply list_elem_of_filter. split; [done | by apply elem_of_elements]. }
    rewrite Hnil in Hin. by apply elem_of_nil in Hin.
  - intros Hsub. apply elem_of_nil_inv. intros k Hin.
    apply list_elem_of_filter in Hin as [Hn Hin]. apply elem_of_elements in Hin.
    apply Hn, Hsub, Hin.
Qed.

(** [hasErrors] stays [false] exactly when no locale of the map misses
    a key of [allKeys]. *)
Lemma checkLocales_hasErrors translations allKeys :
  (checkLocales translations allKeys).1 = false ↔
  ∀ l keys, translations !! l = Some keys → allKeys ⊆ keys.
Proof.
  unfold checkLocales.
  apply (map_fold_weak_ind (λ acc m, acc.1 = false ↔
           ∀ l keys, m !! l = Some keys → allKeys ⊆ keys)).
  - split; [ intros _ l keys Hl; by rewrite lookup_empty in Hl | done ].
  - intros l keys m [hasErrors missingKeys] Hfresh IH. simpl in IH.
    destruct (decide (0 < length (missingIn allKeys keys))) as [Hpos | Hzero]; simpl.
    + split; [done |]. intros Hall.
      assert (allKeys ⊆ keys) as Hsub by (apply (Hall l); by rewrite lookup_insert_eq).
      apply missingIn_nil in Hsub. rewrite Hsub in Hpos. simpl in Hpos. lia.
    + assert (missingIn allKeys keys = []) as Hnil.
      { destruct (missingIn allKeys keys); [done | simpl in Hzero; lia]. }
      apply missingIn_nil in Hnil. rewrite IH. split.
      * intros Hall l' keys' Hl'. destruct (decide (l = l')) as [<- | Hne].
        -- rewrite lookup_insert_eq in Hl'. by inversion Hl'; subst.
        -- rewrite lookup_insert_ne in Hl' by done. eauto.
      * intros Hall l' keys' Hl'. apply (Hall l').
        rewrite lookup_insert_ne; [done |]. intros <-. congruence.
Qed.

Lemma unionKeys_cons_Some fs file rest data :
  fs !! path file = Some data →
  unionKeys fs (file :: rest) = extractKeys data "" ∪ unionKeys fs rest.
Proof. intros Hread. unfold unionKeys, keysOfFile. simpl. by rewrite Hread. Qed.

Lemma keysOfFile_subseteq fs files file keys :
  file ∈ files → keysOfFile fs file = Some keys → keys ⊆ unionKeys fs files.
Proof.
  intros Hin Hkeys k Hk. unfold unionKeys. apply elem_of_union_list.
  exists keys. split; [| done]. apply list_elem_of_omap. eauto.
Qed.


(** An entry of [translations] survives the files of other locales. *)
Lemma readAll_keeps fs files :
  ∀ translations allKeys translations' allKeys' l (keys : gset string),
    readAll fs files translations allKeys = Returns (translations', allKeys') →
    translations !! l = Some keys → l ∉ locale <$> files →
    translations' !! l = Some keys.
Proof.
  induction files as [| file rest IH];
    intros translations allKeys translations' allKeys' l keys; simpl.
  - by intros [= <- <-] Hl _.
  - unfold readTranslationFile. destruct (fs !! path file); [| done].
    intros Hrun Hl Hnot. apply not_elem_of_cons in Hnot as [Hne Hnot].
    eapply IH; [exact Hrun | | done]. by rewrite lookup_insert_ne.
Qed.

(** When every file can be read the first loop returns: [allKeys] has
    grown by the union of the key sets, every entry of [translations]
    is an old one or the key set of a file of that locale, and, the
    locale names being distinct, each file finds its own key set. *)
Lemma readAll_returns fs files :
  ∀ translations allKeys,
    Forall (λ file, is_Some (fs !! path file)) files →
    ∃ translations',
      readAll fs files translations allKeys
      = Returns (translations', allKeys ∪ unionKeys fs files)
      ∧ (∀ l keys, translations' !! l = Some keys →
           (∃ file, file ∈ files ∧ locale file = l ∧ keysOfFile fs file = Some keys)
           ∨ translations !! l = Some keys)
      ∧ (NoDup (locale <$> files) →
           ∀ file, file ∈ files → translations' !! locale file = keysOfFile fs file).
Proof.
  induction files as [| file rest IH]; intros translations allKeys Hall.
  - exists translations. simpl. split; [| split].
    + f_equal. f_equal. unfold unionKeys. simpl. apply leibniz_equiv.
      by rewrite (right_id ∅ (∪)).
    + eauto.
    + intros _ file Hin. by apply elem_of_nil in Hin.
  - apply Forall_cons in Hall as [[data Hread] Hall].
    destruct (IH (<[locale file := extractKeys data ""]> translations)
                 (allKeys ∪ extractKeys data "") Hall)
      as (translations' & Hrun & Hfrom & Hlookup).
    exists translations'. split; [| split].
    + simpl. unfold readTranslationFile. rewrite Hread, Hrun.
      rewrite (unionKeys_cons_Some _ _ _ _ Hread). f_equal. f_equal.
      apply leibniz_equiv. by rewrite (assoc (∪)).
    + intros l keys Hl. destruct (Hfrom l keys Hl) as [(f & Hin & Hloc & Hkeys) | Hprev].
      * left. exists f. split; [by apply list_elem_of_further | done].
      * destruct (decide (locale file = l)) as [Heq | Hne].
        -- rewrite <- Heq, lookup_insert_eq in Hprev. inversion Hprev; subst.
           left. exists file. split; [apply list_elem_of_here |].
           split; [done |]. unfold keysOfFile. by rewrite Hread.
        -- rewrite lookup_insert_ne in Hprev by done. by right.
    + rewrite fmap_cons, NoDup_cons. intros [Hfresh Hnodup] f Hin.
      apply elem_of_cons in Hin as [-> | Hin]; [| by apply Hlookup].
      unfold keysOfFile. rewrite Hread. simpl.
      eapply readAll_keeps; [exact Hrun | apply lookup_insert_eq | done].
Qed.

Lemma sameKeysEverywhere_readable fs files :
  sameKeysEverywhere fs files → Forall (λ file, is_Some (fs !! path file)) files.
Proof.
  intros Hsame. apply Forall_forall. intros file Hin. specialize (Hsame file Hin).
  unfold keysOfFile in Hsame. destruct (fs !! path file); [eauto | done].
Qed.

(** Whatever the locale names, files that all have the keys of the
    union are accepted. *)
Lemma validateTranslationSet_accepts fs files setName :
  sameKeysEverywhere fs files → validateTranslationSet fs files setName = Returns true.
Proof.
  intros Hsame. pose proof (sameKeysEverywhere_readable _ _ Hsame) as Hread.
  destruct (readAll_returns fs files ∅ ∅ Hread) as (translations & Hrun & Hfrom & _).
  unfold validateTranslationSet. rewrite Hrun.
  destruct (checkLocales translations (∅ ∪ unionKeys fs files))
    as [hasErrors missingKeys] eqn:Hcheck.
  assert (hasErrors = false) as ->; [| done].
  change hasErrors with (hasErrors, missingKeys).1. rewrite <- Hcheck.
  apply checkLocales_hasErrors. intros l keys Hl.
  destruct (Hfrom l keys Hl) as [(file & Hin & _ & Hkeys) | Hinit].
  - rewrite (Hsame file Hin) in Hkeys. inversion Hkeys; subst.
    by rewrite (left_id ∅ (∪)).
  - by rewrite lookup_empty in Hinit.
Qed.

(** C8 (as amended): for translation files with pairwise distinct locale
    names, [validateTranslationSet] returns [true] if and only if every
    file is read and has exactly the keys of the union of all key sets,
    which is to say that all files are read and have the same keys; with
    a single readable file it returns [true]. *)
Theorem validateTranslationSet_same_keys fs files setName :
  NoDup (locale <$> files) →
  (validateTranslationSet fs files setName = Returns true
   ↔ sameKeysEverywhere fs files)
  ∧ (validateTranslationSet fs files setName = Returns true
     ↔ ∃ keys, ∀ file, file ∈ files → keysOfFile fs file = Some keys)
  ∧ (∀ file, files = [file] → is_Some (fs !! path file) →
       validateTranslationSet fs files setName = Returns true).
Proof.
  intros Hnodup.
  assert (validateTranslationSet fs files setName = Returns true
          ↔ sameKeysEverywhere fs files) as Hiff.
  { split; [| apply validateTranslationSet_accepts].
    unfold validateTranslationSet.
    destruct (readAll fs files ∅ ∅) as [[translations allKeys] | code] eqn:Hrun; [| done].
    destruct (checkLocales translations allKeys) as [hasErrors missingKeys] eqn:Hcheck.
    destruct hasErrors; [done |]. intros _.
    assert (Forall (λ file, is_Some (fs !! path file)) files) as Hread.
    { apply Forall_forall. intros file Hin.
      destruct (fs !! path file) as [data |] eqn:Hfile; [eauto |].
      exfalso. clear Hcheck Hnodup. revert translations allKeys Hrun.
      generalize (∅ : gmap string (gset string)) (∅ : gset string).
      induction files as [| f rest IH]; [by apply elem_of_nil in Hin |].
      intros tr0 ak0 tr ak. simpl. unfold readTranslationFile.
      apply elem_of_cons in Hin as [<- | Hin]; [by rewrite Hfile |].
      destruct (fs !! path f); [by eauto | done]. }
    destruct (readAll_returns fs files ∅ ∅ Hread) as (translations' & Hrun' & _ & Hlookup).
    rewrite Hrun in Hrun'. inversion Hrun'; subst translations' allKeys.
    assert ((checkLocales translations (∅ ∪ unionKeys fs files)).1 = false) as Hok
      by (by rewrite Hcheck).
    rewrite checkLocales_hasErrors in Hok.
    intros file Hin. specialize (Hlookup Hnodup file Hin).
    destruct (keysOfFile fs file) as [keys |] eqn:Hkeys.
    - f_equal. apply leibniz_equiv, set_equiv_subseteq. split.
      + by eapply keysOfFile_subseteq.
      + specialize (Hok _ _ Hlookup). by rewrite (left_id ∅ (∪)) in Hok.
    - apply Forall_forall with (x := file) in Hread; [| done].
      unfold keysOfFile in Hkeys. destruct Hread as [data Hdata].
      by rewrite Hdata in Hkeys. }
  split; [exact Hiff |]. split.
  - rewrite Hiff. split.
    + intros Hsame. exists (unionKeys fs files). exact Hsame.
    + intros (keys & Hall) file Hin. rewrite (Hall file Hin). f_equal.
      apply leibniz_equiv, set_equiv_subseteq. split.
      * by eapply keysOfFile_subseteq; [exact Hin | apply Hall].
      * intros k Hk. apply elem_of_union_list in Hk as (X & HX & Hk).
        apply list_elem_of_omap in HX as (f & Hf & HfX).
        rewrite (Hall f Hf) in HfX. by inversion HfX; subst.
  - intros file -> [data Hdata]. apply Hiff. intros f Hin.
    apply list_elem_of_singleton in Hin as ->.
    unfold keysOfFile, unionKeys. simpl. unfold keysOfFile. rewrite Hdata. simpl.
    f_equal. apply leibniz_equiv. by rewrite (right_id ∅ (∪)).
Qed.

Lemma validateTranslationSet_same_keys_witness :
  NoDup (locale <$> exampleFiles)
  ∧ validateTranslationSet exampleFs exampleFiles "Frontend" = Returns true
  ∧ sameKeysEverywhere exampleFs exampleFiles.
Proof.
  assert (NoDup (locale <$> exampleFiles)) as Hnodup
    by (apply (bool_decide_unpack _); by vm_compute).
  destruct (validateTranslationSet_same_keys exampleFs exampleFiles "Frontend"
              Hnodup) as ([Hto _] & _ & _).
  assert (validateTranslationSet exampleFs exampleFiles "Frontend" = Returns true)
    as Hrun by (by vm_compute).
  split; [exact Hnodup |]. split; [exact Hrun |].
  exact (Hto Hrun).
Defined.

(** C8 (as stated, refuted): with two files under one locale name the
    key set of the first is replaced in [translations] by that of the
    second, yet stays in [allKeys]; when the second file has all the keys
    of the first and more, [true] is returned although the files do not
    have the same keys. *)
Lemma validateTranslationSet_duplicate_locale :
  duplicateLocaleFiles ≠ []
  ∧ ¬ (validateTranslationSet duplicateLocaleFs duplicateLocaleFiles "Frontend"
       = Returns true
       ↔ sameKeysEverywhere duplicateLocaleFs duplicateLocaleFiles).
Proof.
  split; [done |]. intros [Hto _].
  assert (validateTranslationSet duplicateLocaleFs duplicateLocaleFiles "Frontend"
          = Returns true) as Hrun by (by vm_compute).
  specialize (Hto Hrun {| locale := "en"; path := "old/en/translation.json" |}
                (list_elem_of_here _ _)).
  assert ("subtitle" ∈ unionKeys duplicateLocaleFs duplicateLocaleFiles) as Hin
    by (by vm_compute).
  assert (keysOfFile duplicateLocaleFs
            {| locale := "en"; path := "old/en/translation.json" |}
          = Some {[ "title" ]}) as Hkeys by (by vm_compute).
  rewrite Hkeys in Hto. apply (inj Some) in Hto. rewrite <- Hto in Hin.
  apply elem_of_singleton in Hin. discriminate Hin.
Qed.

End TranslationsFacts.

(** ** Auto-fill of the answers form *)

Module AutoFillFacts.
Import AutoFill.

(** *** Arrays *)

Lemma arrayGet_arraySet_eq arr i x : arrayGet (arraySet arr i x) i = Some x.
Proof.
  unfold arrayGet, arraySet. destruct (decide (i < length arr)) as [Hlt | Hge].
  - by rewrite list_lookup_insert_eq.
  - rewrite lookup_app_r by lia. rewrite lookup_app_r; rewrite length_replicate; [| lia].
    by replace (i - length arr - (i - length arr)) with 0 by lia.
Qed.

Lemma arrayGet_arraySet_ne arr i j x :
  i ≠ j → arrayGet (arraySet arr i x) j = arrayGet arr j.
Proof.
  intros Hne. unfold arrayGet, arraySet.
  destruct (decide (i < length arr)) as [Hlt | Hge].
  - by rewrite list_lookup_insert_ne.
  - destruct (decide (j < length arr)) as [Hj | Hj].
    + by rewrite lookup_app_l.
    + rewrite (lookup_ge_None_2 arr j) by lia. rewrite lookup_app_r by lia.
      destruct (decide (j - length arr < i - length arr)) as [Hhole | Hpast].
      * rewrite lookup_app_l by (rewrite length_replicate; lia).
        by rewrite lookup_replicate_2.
      * rewrite lookup_app_r; rewrite length_replicate; [| lia].
        rewrite lookup_ge_None_2; [done |]. simpl. lia.
Qed.

(** *** One result *)

Lemma applyResult_skip quinipolo arr result :
  (MatchResult.matchNumber result < 1 ∨ 15 < MatchResult.matchNumber result)%Z →
  applyResult quinipolo arr result = arr.
Proof.
  intros Hout. unfold applyResult.
  destruct (decide (_ ∨ _)) as [_ | Hin]; [done | lia].
Qed.

Lemma applyResult_slot quinipolo arr result :
  (1 <= MatchResult.matchNumber result <= 15)%Z →
  arrayGet (applyResult quinipolo arr result)
    (Z.to_nat (MatchResult.matchNumber result - 1))
  = Some (written quinipolo arr result).
Proof.
  intros Hrange. unfold applyResult, written.
  destruct (decide (_ ∨ _)) as [Hout | _]; [lia |]. cbv zeta.
  destruct (decide (MatchResult.matchNumber result - 1 = 14)%Z) as [H14 | Hn14].
  - rewrite H14. change (Z.to_nat 14) with 14.
    destruct (effectiveScores result) as [homeScore awayScore]. simpl.
    by rewrite !arrayGet_arraySet_eq.
  - by rewrite arrayGet_arraySet_eq.
Qed.

Lemma applyResult_other quinipolo arr result j :
  MatchResult.matchNumber result ≠ (Z.of_nat j + 1)%Z →
  arrayGet (applyResult quinipolo arr result) j = arrayGet arr j.
Proof.
  intros Hne. unfold applyResult.
  destruct (decide (_ ∨ _)) as [Hout | Hin]; [done |]. cbv zeta.
  destruct (decide (MatchResult.matchNumber result - 1 = 14)%Z) as [H14 | Hn14].
  - destruct (effectiveScores result) as [homeScore awayScore].
    rewrite arrayGet_arraySet_ne by lia. rewrite arrayGet_arraySet_ne by lia. done.
  - rewrite arrayGet_arraySet_ne by lia. done.
Qed.

(** *** The whole list *)

Lemma applyAutoFillResults_app ms1 ms2 arr quinipolo :
  applyAutoFillResults (ms1 ++ ms2) arr quinipolo
  = applyAutoFillResults ms2 (applyAutoFillResults ms1 arr quinipolo) quinipolo.
Proof. unfold applyAutoFillResults. apply foldl_app. Qed.

Lemma applyAutoFillResults_other matches quinipolo j :
  ∀ arr,
    Forall (λ result, MatchResult.matchNumber result ≠ (Z.of_nat j + 1)%Z) matches →
    arrayGet (applyAutoFillResults matches arr quinipolo) j = arrayGet arr j.
Proof.
  induction matches as [| result rest IH]; intros arr Hall; [done |].
  apply Forall_cons in Hall as [Hne Hall]. unfold applyAutoFillResults in *. simpl.
  rewrite IH by done. by apply applyResult_other.
Qed.

(** The slot of a result that no later result addresses holds what that
    result wrote. *)
Lemma applyAutoFillResults_last before result after arr quinipolo :
  (1 <= MatchResult.matchNumber result <= 15)%Z →
  Forall (λ later, MatchResult.matchNumber later ≠ MatchResult.matchNumber result) after →
  arrayGet (applyAutoFillResults (before ++ result :: after) arr quinipolo)
    (Z.to_nat (MatchResult.matchNumber result - 1))
  = Some (written quinipolo (applyAutoFillResults before arr quinipolo) result).
Proof.
  intros Hrange Hafter. rewrite applyAutoFillResults_app.
  change (applyAutoFillResults (result :: after) ?a quinipolo)
    with (applyAutoFillResults after (applyResult quinipolo a result) quinipolo).
  rewrite applyAutoFillResults_other.
  - by apply applyResult_slot.
  - eapply Forall_impl; [exact Hafter |]. intros later Hne. simpl in Hne. lia.
Qed.

(** *** Goal ranges *)

(** C4: [scoreToGoalRange] gives every score exactly one of the three
    labels: ["-"] below 11, ["11/12"] from 11 to 12 inclusive, ["+"]
    above 12; so 11 falls in ["11/12"], 10 in the low bucket and 13 in
    the high one. *)
Theorem scoreToGoalRange_three_buckets :
  (∀ score : Z,
     ((score < 11)%Z ∧ scoreToGoalRange score = "-")
     ∨ ((11 <= score <= 12)%Z ∧ scoreToGoalRange score = "11/12")
     ∨ ((12 < score)%Z ∧ scoreToGoalRange score = "+"))
  ∧ scoreToGoalRange 11 = "11/12"
  ∧ scoreToGoalRange 10 = "-"
  ∧ scoreToGoalRange 13 = "+"
  ∧ ("-" ≠ "11/12" ∧ "11/12" ≠ "+" ∧ "-" ≠ "+").
Proof.
  split; [| by repeat split].
  intros score. unfold scoreToGoalRange.
  destruct (decide (score < 11)%Z) as [Hlow | Hnotlow]; [by left |].
  destruct (decide (score >= 11 ∧ score <= 12)%Z) as [Hmid | Hnotmid].
  - right; left. split; [lia | done].
  - right; right. split; [lia | done].
Qed.

Lemma scoreToGoalRange_bucket score :
  bucketOfLabel (scoreToGoalRange score)
  = Some (bucket_spec {| midFrom := 11; midTo := 12 |} score).
Proof.
  unfold scoreToGoalRange, bucket_spec. simpl.
  destruct (decide (score < 11)%Z); [done |].
  destruct (decide (score >= 11 ∧ score <= 12)%Z), (decide (score <= 12)%Z);
    try done; lia.
Qed.

Lemma goalsOf_arraySet_ne arr i j x :
  i ≠ j → goalsOf (arrayGet (arraySet arr i x) j) = goalsOf (arrayGet arr j).
Proof. intros Hne. by rewrite arrayGet_arraySet_ne. Qed.

(** The goal labels one result leaves in the array do not depend on the
    quinipolo. *)
Lemma applyResult_goals quinipolo1 quinipolo2 arr1 arr2 result :
  (∀ j, goalsOf (arrayGet arr1 j) = goalsOf (arrayGet arr2 j)) →
  ∀ j, goalsOf (arrayGet (applyResult quinipolo1 arr1 result) j)
       = goalsOf (arrayGet (applyResult quinipolo2 arr2 result) j).
Proof.
  intros Hsame j.
  destruct (decide (MatchResult.matchNumber result = (Z.of_nat j + 1)%Z)) as [Heq | Hne];
    [| by rewrite !applyResult_other].
  destruct (decide (1 <= MatchResult.matchNumber result <= 15)%Z) as [Hin | Hout];
    [| rewrite !applyResult_skip by lia; done].
  replace j with (Z.to_nat (MatchResult.matchNumber result - 1)) by lia.
  rewrite !applyResult_slot by done. unfold written.
  destruct (decide (MatchResult.matchNumber result - 1 = 14)%Z); [done |].
  specialize (Hsame (Z.to_nat (MatchResult.matchNumber result - 1))).
  unfold goalsOf, spread in *. simpl.
  destruct (arrayGet arr1 _), (arrayGet arr2 _); simpl in *; congruence.
Qed.

Lemma applyAutoFillResults_goals matches quinipolo1 quinipolo2 :
  ∀ arr1 arr2,
    (∀ j, goalsOf (arrayGet arr1 j) = goalsOf (arrayGet arr2 j)) →
    ∀ j, goalsOf (arrayGet (applyAutoFillResults matches arr1 quinipolo1) j)
         = goalsOf (arrayGet (applyAutoFillResults matches arr2 quinipolo2) j).
Proof.
  induction matches as [| result rest IH]; intros arr1 arr2 Hsame; [done |].
  unfold applyAutoFillResults in *. simpl. apply IH. by apply applyResult_goals.
Qed.

(** C3 (as amended): the bounds of the buckets are fixed in
    [scoreToGoalRange], which takes the score alone: its labels are the
    buckets of the middle range 11 to 12 for every score, the label
    written for game 15 is that of the score whatever the game type of
    the form, and the goal labels [applyAutoFillResults] leaves in any
    slot are the same for any two quinipolos. *)
Theorem goal_ranges_fixed_for_every_gameType :
  (∀ score, bucketOfLabel (scoreToGoalRange score)
            = Some (bucket_spec {| midFrom := 11; midTo := 12 |} score))
  ∧ (∀ gameType score,
       derivedGoalLabel gameType score = Some (scoreToGoalRange score))
  ∧ (∀ matches currentAnswers quinipolo1 quinipolo2 j,
       goalsOf (arrayGet (applyAutoFillResults matches currentAnswers quinipolo1) j)
       = goalsOf (arrayGet (applyAutoFillResults matches currentAnswers quinipolo2) j)).
Proof.
  split; [exact scoreToGoalRange_bucket |]. split.
  - intros gameType score. reflexivity.
  - intros matches currentAnswers quinipolo1 quinipolo2 j.
    by apply applyAutoFillResults_goals.
Qed.

(** C3 (as stated, refuted): were the bounds a parameter supplied per
    game type, a football form configured with the middle range 2 to 3
    would put a score of 3 in the middle bucket; the code puts it in the
    low one. *)
Lemma goal_ranges_not_configurable :
  ¬ (∀ (thresholds : GameType → Thresholds) gameType score,
       derivedGoalLabel gameType score ≫= bucketOfLabel
       = Some (bucket_spec (thresholds gameType) score)).
Proof.
  intros Hclaim.
  specialize (Hclaim thresholdsPerGameType football 3%Z).
  vm_compute in Hclaim. discriminate Hclaim.
Qed.

(** *** Frame *)

(** C7: a slot that no result of the list addresses is left exactly as
    it was: reading it after [applyAutoFillResults] gives what reading it
    before gave. *)
Theorem applyAutoFillResults_frame matches currentAnswers quinipolo j :
  Forall (λ result, MatchResult.matchNumber result ≠ (Z.of_nat j + 1)%Z) matches →
  arrayGet (applyAutoFillResults matches currentAnswers quinipolo) j
  = arrayGet currentAnswers j.
Proof. apply applyAutoFillResults_other. Qed.

Lemma applyAutoFillResults_frame_witness :
  Forall (λ result, MatchResult.matchNumber result ≠ (Z.of_nat 4 + 1)%Z)
    [homeWinResult; shootoutResult]
  ∧ arrayGet (applyAutoFillResults [homeWinResult; shootoutResult]
                createInitialAnswers (formOf waterpolo)) 4
    = arrayGet createInitialAnswers 4.
Proof.
  assert (Forall (λ result, MatchResult.matchNumber result ≠ (Z.of_nat 4 + 1)%Z)
            [homeWinResult; shootoutResult]) as Hnone
    by (repeat constructor; simpl; lia).
  split; [exact Hnone |].
  exact (applyAutoFillResults_frame [homeWinResult; shootoutResult]
           createInitialAnswers (formOf waterpolo) 4 Hnone).
Defined.

(** *** Winner *)

(** C10: a result for one of the slots 1 to 15 whose outcome is neither
    ["Tie"] nor ["Tie (PEN)"] nor a team of the question of that slot
    sets the winner of the slot to the empty string, whatever winner the
    slot held; this is what the slot holds at the end when no later
    result addresses it. *)
Theorem applyAutoFillResults_unknown_outcome_clears_winner
    before result after currentAnswers quinipolo :
  (1 <= MatchResult.matchNumber result <= 15)%Z →
  MatchResult.outcome result ≠ "Tie" →
  MatchResult.outcome result ≠ "Tie (PEN)" →
  (∀ quinipoloMatch,
     Quinipolo.quinipolo quinipolo !! Z.to_nat (MatchResult.matchNumber result - 1)
     = Some quinipoloMatch →
     MatchResult.outcome result ≠ Quinipolo.homeTeam quinipoloMatch
     ∧ MatchResult.outcome result ≠ Quinipolo.awayTeam quinipoloMatch) →
  Forall (λ later, MatchResult.matchNumber later ≠ MatchResult.matchNumber result)
    after →
  arrayGet (applyAutoFillResults (before ++ result :: after) currentAnswers quinipolo)
    (Z.to_nat (MatchResult.matchNumber result - 1))
  ≫= Answer.chosenWinner = Some "".
Proof.
  intros Hrange Htie Hpen Hteams Hlater.
  rewrite applyAutoFillResults_last by done.
  assert (chooseWinner quinipolo result (Z.to_nat (MatchResult.matchNumber result - 1))
          = "") as Hwinner.
  { unfold chooseWinner. destruct (decide (_ ∨ _)) as [[? | ?] | _]; [done | done |].
    destruct (Quinipolo.quinipolo quinipolo !! _) as [quinipoloMatch |] eqn:Hq; [| done].
    destruct (Hteams _ eq_refl) as [Hhome Haway].
    destruct (decide (_ = Quinipolo.homeTeam _)); [done |].
    by destruct (decide (_ = Quinipolo.awayTeam _)). }
  unfold written. rewrite Hwinner. simpl.
  by destruct (decide (MatchResult.matchNumber result - 1 = 14)%Z).
Qed.

(** *** Penalty shootouts *)

(** C1: a result decided on penalties (outcome ["Tie (PEN)"]) whose two
    regulation scores are present is a draw -- the winner written is
    ["empat"] -- and its effective scores are the regulation scores; for
    game 15 the goal labels are those of the regulation scores. *)
Theorem shootout_is_draw_at_regulation_scores
    before result after currentAnswers quinipolo homeRegulation awayRegulation :
  (1 <= MatchResult.matchNumber result <= 15)%Z →
  MatchResult.outcome result = "Tie (PEN)" →
  MatchResult.homeRegulationScore result = Some homeRegulation →
  MatchResult.awayRegulationScore result = Some awayRegulation →
  Forall (λ later, MatchResult.matchNumber later ≠ MatchResult.matchNumber result)
    after →
  effectiveScores result = (homeRegulation, awayRegulation)
  ∧ ∃ slot,
      arrayGet (applyAutoFillResults (before ++ result :: after) currentAnswers quinipolo)
        (Z.to_nat (MatchResult.matchNumber result - 1)) = Some slot
      ∧ Answer.chosenWinner slot = Some "empat"
      ∧ (MatchResult.matchNumber result = 15%Z →
         Answer.goalsHomeTeam slot = Some (scoreToGoalRange homeRegulation)
         ∧ Answer.goalsAwayTeam slot = Some (scoreToGoalRange awayRegulation)).
Proof.
  intros Hrange Hpen Hhome Haway Hlater.
  assert (effectiveScores result = (homeRegulation, awayRegulation)) as Heff.
  { unfold effectiveScores. rewrite Hhome, Haway, Hpen. done. }
  split; [exact Heff |]. eexists. split.
  - by apply applyAutoFillResults_last.
  - unfold written. rewrite Heff.
    assert (chooseWinner quinipolo result (Z.to_nat (MatchResult.matchNumber result - 1))
            = "empat") as ->.
    { unfold chooseWinner. rewrite Hpen. done. }
    destruct (decide (MatchResult.matchNumber result - 1 = 14)%Z) as [H14 | Hn14]; simpl.
    + done.
    + split; [done |]. lia.
Qed.

Lemma shootout_is_draw_at_regulation_scores_witness :
  (1 <= MatchResult.matchNumber shootoutResult <= 15)%Z
  ∧ MatchResult.outcome shootoutResult = "Tie (PEN)"
  ∧ MatchResult.homeRegulationScore shootoutResult = Some 1%Z
  ∧ MatchResult.awayRegulationScore shootoutResult = Some 1%Z
  ∧ effectiveScores shootoutResult = (1, 1)%Z
  ∧ ∃ slot,
      arrayGet (applyAutoFillResults ([homeWinResult] ++ shootoutResult :: [])
                  createInitialAnswers (formOf waterpolo))
        (Z.to_nat (MatchResult.matchNumber shootoutResult - 1)) = Some slot
      ∧ Answer.chosenWinner slot = Some "empat"
      ∧ (MatchResult.matchNumber shootoutResult = 15%Z →
         Answer.goalsHomeTeam slot = Some (scoreToGoalRange 1)
         ∧ Answer.goalsAwayTeam slot = Some (scoreToGoalRange 1)).
Proof.
  assert (1 <= MatchResult.matchNumber shootoutResult <= 15)%Z as Hrange
    by (simpl; lia).
  split; [exact Hrange |]. do 3 (split; [reflexivity |]).
  exact (shootout_is_draw_at_regulation_scores [homeWinResult] shootoutResult []
           createInitialAnswers (formOf waterpolo) 1 1
           Hrange eq_refl eq_refl eq_refl (Forall_nil_2 _)).
Defined.

(** The penalties of a shootout do not count: 14-13 after penalties,
    11-11 after regulation, is filed under ["11/12"] for both sides. *)
Example long_shootout_goal_labels :
  goalsOf (arrayGet (applyAutoFillResults [longShootoutResult]
                       createInitialAnswers (formOf waterpolo)) 14)
  = (Some "11/12", Some "11/12").
Proof. reflexivity. Qed.

Lemma applyAutoFillResults_unknown_outcome_clears_winner_witness :
  (1 <= MatchResult.matchNumber strangerResult <= 15)%Z
  ∧ MatchResult.outcome strangerResult ≠ "Tie"
  ∧ MatchResult.outcome strangerResult ≠ "Tie (PEN)"
  ∧ arrayGet (applyAutoFillResults [homeWinResult] createInitialAnswers
                (formOf waterpolo)) 2
    ≫= Answer.chosenWinner = Some "Home"
  ∧ arrayGet (applyAutoFillResults ([homeWinResult] ++ strangerResult :: [shootoutResult])
                createInitialAnswers (formOf waterpolo))
      (Z.to_nat (MatchResult.matchNumber strangerResult - 1))
    ≫= Answer.chosenWinner = Some "".
Proof.
  assert (1 <= MatchResult.matchNumber strangerResult <= 15)%Z as Hrange
    by (simpl; lia).
  assert (MatchResult.outcome strangerResult ≠ "Tie") as Htie by discriminate.
  assert (MatchResult.outcome strangerResult ≠ "Tie (PEN)") as Hpen by discriminate.
  split; [exact Hrange |]. split; [exact Htie |]. split; [exact Hpen |].
  split; [reflexivity |].
  apply (applyAutoFillResults_unknown_outcome_clears_winner
           [homeWinResult] strangerResult [shootoutResult]
           createInitialAnswers (formOf waterpolo) Hrange Htie Hpen).
  - intros quinipoloMatch Hlookup. vm_compute in Hlookup.
    injection Hlookup as <-. split; discriminate.
  - repeat constructor. simpl. lia.
Defined.

End AutoFillFacts.

(** ** The result pipeline *)

Module PipelineFacts.
Import Pipeline.

(** *** Merging the feeds *)

Lemma elem_of_concat {A : Type} (x : A) (ls : list (list A)) :
  x ∈ concat ls ↔ ∃ l, l ∈ ls ∧ x ∈ l.
Proof.
  induction ls as [| l rest IH]; simpl.
  - split; [intros Hin; by apply elem_of_nil in Hin |].
    intros (l & Hl & _). by apply elem_of_nil in Hl.
  - rewrite elem_of_app, IH. split.
    + intros [Hx | (l' & Hl' & Hx)].
      * exists l. split; [apply list_elem_of_here | done].
      * exists l'. split; [by apply list_elem_of_further | done].
    + intros (l' & Hl' & Hx). apply elem_of_cons in Hl' as [-> | Hl']; eauto.
Qed.

Lemma Promise_all_caught fetchers :
  Promise_all ((λ p, catch p excludeSource) <$> fetchers)
  = Fulfilled (contribution <$> fetchers).
Proof.
  induction fetchers as [| p rest IH]; [done |].
  rewrite !fmap_cons. simpl. rewrite IH. by destruct p.
Qed.

Lemma concat_contribution fetchers :
  concat (contribution <$> fetchers) = delivered fetchers.
Proof.
  unfold delivered. induction fetchers as [| p rest IH]; [done |].
  rewrite fmap_cons. simpl. rewrite IH. by destruct p.
Qed.

(** Without the handlers one failing fetcher fails the whole merge. *)
Lemma Promise_all_rejects {A : Type} (ps : list (Promise A)) reason :
  Rejected reason ∈ ps → ∃ reason', Promise_all ps = Rejected reason'.
Proof.
  induction ps as [| p rest IH]; intros Hin; [by apply elem_of_nil in Hin |].
  apply elem_of_cons in Hin as [<- | Hin]; simpl; [eauto |].
  destruct p as [value | reason0]; [| eauto].
  destruct (IH Hin) as [reason' ->]. eauto.
Qed.

Lemma elem_of_delivered fetchers r :
  r ∈ delivered fetchers ↔ ∃ results, Fulfilled results ∈ fetchers ∧ r ∈ results.
Proof.
  unfold delivered. rewrite elem_of_concat. split.
  - intros (l & Hl & Hr). apply list_elem_of_omap in Hl as (p & Hp & Hsome).
    destruct p as [results | reason]; [| done]. inversion Hsome; subst. eauto.
  - intros (results & Hin & Hr). exists results. split; [| done].
    apply list_elem_of_omap. exists (Fulfilled results). eauto.
Qed.

Lemma mergeSources_fulfilled fetchers :
  mergeSources fetchers = Fulfilled (delivered fetchers).
Proof.
  unfold mergeSources. rewrite Promise_all_caught. simpl.
  by rewrite concat_contribution.
Qed.

(** C5: whatever the fetchers did, the merge is fulfilled, never
    rejected: with exactly the results of the fetchers that did not
    fail, in order -- every result of every such fetcher is in the
    merged set and nothing else is; the two-feed merge of
    [fetchLastWeekResults] is the instance for two fetchers. *)
Theorem mergeSources_tolerates_failures :
  (∀ fetchers, mergeSources fetchers = Fulfilled (delivered fetchers))
  ∧ (∀ fetchers results r,
       Fulfilled results ∈ fetchers → r ∈ results → r ∈ delivered fetchers)
  ∧ (∀ fetchers r,
       r ∈ delivered fetchers → ∃ results, Fulfilled results ∈ fetchers ∧ r ∈ results)
  ∧ (∀ flashscore championsLeague,
       fetchLastWeekResults_allResults flashscore championsLeague
       = Fulfilled (delivered [flashscore; championsLeague])).
Proof.
  split; [| split; [| split]].
  - exact mergeSources_fulfilled.
  - intros fetchers results r Hin Hr. apply elem_of_delivered. eauto.
  - intros fetchers r Hr. by apply elem_of_delivered.
  - intros [flashscoreResults | reason1] [championsLeagueResults | reason2];
      unfold fetchLastWeekResults_allResults, delivered; simpl;
      by rewrite ?app_nil_r.
Qed.

(** The resolver of the specification and the game-15 block of
    [applyAutoFillResults] agree on the effective scores. *)
Lemma resolve_effectiveScores raw result :
  rendersAs raw result →
  ((resolve raw).1.2, (resolve raw).2) = AutoFill.effectiveScores result.
Proof.
  intros (Hshootout & Hhome & Haway & HhomeReg & HawayReg).
  unfold resolve, AutoFill.effectiveScores. rewrite HhomeReg, HawayReg, Hhome, Haway.
  destruct (RawResult.homeRegulationScore raw) as [homeRegulation |],
           (RawResult.awayRegulationScore raw) as [awayRegulation |];
    try (by destruct (RawResult.status raw)).
  destruct (decide (AutoFill.MatchResult.outcome result = "Tie (PEN)")) as [Hpen | Hnot].
  - apply Hshootout in Hpen. by rewrite Hpen.
  - destruct (RawResult.status raw) eqn:Hstatus; try done.
    exfalso. apply Hnot. by apply Hshootout.
Qed.

(** The example run: the failed feed and the fixture still to be played
    are dropped, each question gets the result of its fixture. *)
Example pipeline_example :
  pipeline id exactSimilarity tierThreshold 40 waterpoloThresholds 86400
    exampleFetchers 1000000 7 exampleQuestions
  = Fulfilled
      [ {| MatchCandidate.matchNumber := 1; MatchCandidate.questionIndex := 0;
           MatchCandidate.resultIndex := 0; MatchCandidate.confidence := 100;
           MatchCandidate.derivedOutcome := homeWin;
           MatchCandidate.derivedGoalsHome := None;
           MatchCandidate.derivedGoalsAway := None |};
        {| MatchCandidate.matchNumber := 2; MatchCandidate.questionIndex := 1;
           MatchCandidate.resultIndex := 1; MatchCandidate.confidence := 100;
           MatchCandidate.derivedOutcome := awayWin;
           MatchCandidate.derivedGoalsHome := Some AutoFill.mid;
           MatchCandidate.derivedGoalsAway := Some AutoFill.high |} ].
Proof. by vm_compute. Qed.

Section EngineFacts.

Variable normalize : string → string.
Variable similarity : string → string → Z.
Variable threshold : bool → Z.
Variable similarityFloor : Z.
Variable thresholds : string → AutoFill.Thresholds.
Variable dayLength : Z.

Abbreviation pairConfidence := (pairConfidence normalize similarity threshold similarityFloor).
Abbreviation survivingPairs := (survivingPairs normalize similarity threshold similarityFloor).
Abbreviation pairsOfQuestion := (pairsOfQuestion normalize similarity threshold similarityFloor).
Abbreviation match_ := (match_ normalize similarity threshold similarityFloor thresholds).
Abbreviation aggregate := (aggregate normalize dayLength).
Abbreviation dedupe := (dedupe normalize dayLength).
Abbreviation keepMoreComplete := (keepMoreComplete normalize dayLength).
Abbreviation dateWindowFilter := (dateWindowFilter dayLength).
Abbreviation pipeline :=
  (pipeline normalize similarity threshold similarityFloor thresholds dayLength).

(** *** Greedy assignment *)

Lemma best_elem_of pairs p : best pairs = Some p → p ∈ pairs.
Proof.
  revert p. induction pairs as [| x rest IH]; intros p; simpl; [done |].
  destruct (best rest) as [b |]; [destruct (better b x) |]; intros [= <-];
    first [ apply list_elem_of_here | apply list_elem_of_further; by apply IH ].
Qed.

(** The bound pairs are pairs of the input, and no two of them share a
    question or a result. *)
Lemma assign_one_to_one pairs :
  NoDup (pQuestionIndex <$> assign pairs)
  ∧ NoDup (pResultIndex <$> assign pairs)
  ∧ ∀ x, x ∈ assign pairs → x ∈ pairs.
Proof.
  funelim (assign pairs).
  - destruct H as (IHq & IHr & IHin).
    assert (∀ x, x ∈ assign (filter (unbound p) pairs) → unbound p x ∧ x ∈ pairs) as Hopen.
    { intros x Hx. apply IHin in Hx. by apply list_elem_of_filter in Hx. }
    rewrite !fmap_cons, !NoDup_cons. repeat split; try done.
    + intros Hdup. apply list_elem_of_fmap in Hdup as (x & Heq & Hx).
      destruct (Hopen x Hx) as [[Hq _] _]. congruence.
    + intros Hdup. apply list_elem_of_fmap in Hdup as (x & Heq & Hx).
      destruct (Hopen x Hx) as [[_ Hr] _]. congruence.
    + intros x Hx. apply elem_of_cons in Hx as [-> | Hx].
      * by apply best_elem_of.
      * by apply Hopen.
  - repeat split; try apply NoDup_nil_2. intros x Hx. by apply elem_of_nil in Hx.
Qed.

Lemma candidateOf_indices slots p :
  MatchCandidate.questionIndex (candidateOf thresholds slots p) = pQuestionIndex p
  ∧ MatchCandidate.resultIndex (candidateOf thresholds slots p) = pResultIndex p
  ∧ MatchCandidate.matchNumber (candidateOf thresholds slots p)
    = Question.matchNumber (pQuestion p).
Proof. unfold candidateOf. by destruct (resolve (pResult p)) as [[? ?] ?]. Qed.

Lemma match_indices questions results :
  MatchCandidate.questionIndex <$> match_ questions results
  = pQuestionIndex <$> assign (survivingPairs questions results)
  ∧ MatchCandidate.resultIndex <$> match_ questions results
    = pResultIndex <$> assign (survivingPairs questions results).
Proof.
  unfold Pipeline.match_. rewrite <- !list_fmap_compose.
  split; apply list_fmap_ext; intros i p _; simpl; apply candidateOf_indices.
Qed.

Lemma match_indices_NoDup questions results :
  NoDup (MatchCandidate.questionIndex <$> match_ questions results)
  ∧ NoDup (MatchCandidate.resultIndex <$> match_ questions results).
Proof.
  destruct (match_indices questions results) as [-> ->].
  destruct (assign_one_to_one (survivingPairs questions results)) as (Hq & Hr & _).
  by split.
Qed.

(** C2: in the output of one matching run no two candidates name the
    same result and no two name the same question, whatever the
    questions, the results and the tuning. *)
Theorem match_is_one_to_one questions results :
  NoDup (MatchCandidate.questionIndex <$> match_ questions results)
  ∧ NoDup (MatchCandidate.resultIndex <$> match_ questions results).
Proof. apply match_indices_NoDup. Qed.

(** *** Where the pairs come from *)

Lemma pairsOfQuestion_lookup results qi q p :
  p ∈ pairsOfQuestion results qi q →
  pQuestionIndex p = qi ∧ pQuestion p = q ∧ results !! pResultIndex p = Some (pResult p).
Proof.
  unfold Pipeline.pairsOfQuestion. destruct (decide (validQuestion q)) as [_ | _];
    [| intros Hin; by apply elem_of_nil in Hin].
  intros Hin. apply list_elem_of_omap in Hin as (o & Ho & Hsome). simpl in Hsome. subst o.
  apply elem_of_lookup_imap in Ho as (ri & r & Heq & Hr).
  destruct (pairConfidence q r) as [confidence |]; [| done].
  simpl in Heq. inversion Heq; subst. by simpl.
Qed.

Lemma survivingPairs_lookup questions results p :
  p ∈ survivingPairs questions results →
  questions !! pQuestionIndex p = Some (pQuestion p)
  ∧ results !! pResultIndex p = Some (pResult p).
Proof.
  unfold Pipeline.survivingPairs. intros Hin.
  apply elem_of_concat in Hin as (l & Hl & Hp).
  apply elem_of_lookup_imap in Hl as (qi & q & -> & Hq).
  apply pairsOfQuestion_lookup in Hp as (-> & -> & Hr). by split.
Qed.

(** Every candidate names a question of the form and a result of the
    snapshot: nothing is made up. *)
Lemma match_lookup questions results c :
  c ∈ match_ questions results →
  ∃ q r, questions !! MatchCandidate.questionIndex c = Some q
         ∧ results !! MatchCandidate.resultIndex c = Some r
         ∧ MatchCandidate.matchNumber c = Question.matchNumber q.
Proof.
  unfold Pipeline.match_. intros Hin. apply list_elem_of_fmap in Hin as (p & -> & Hp).
  apply assign_one_to_one, survivingPairs_lookup in Hp as [Hq Hr].
  destruct (candidateOf_indices (length questions) p) as (-> & -> & ->). eauto.
Qed.

(** When the match numbers of the form are distinct, so are those of
    the candidates. *)
Lemma match_matchNumbers questions results :
  NoDup (Question.matchNumber <$> questions) →
  NoDup (MatchCandidate.matchNumber <$> match_ questions results).
Proof.
  intros Hform. destruct (match_indices_NoDup questions results) as [Hq _].
  assert (∀ c, c ∈ match_ questions results →
            (Question.matchNumber <$> questions) !! MatchCandidate.questionIndex c
            = Some (MatchCandidate.matchNumber c)) as Hnumber.
  { intros c Hc. apply match_lookup in Hc as (q & r & Hlookup & _ & ->).
    by rewrite list_lookup_fmap, Hlookup. }
  induction (match_ questions results) as [| c cs IH]; [apply NoDup_nil_2 |].
  rewrite fmap_cons in *. apply NoDup_cons in Hq as [Hfresh Hq].
  apply NoDup_cons. split.
  - intros Hdup. apply list_elem_of_fmap in Hdup as (c' & Heq & Hc').
    apply Hfresh. apply list_elem_of_fmap. exists c'. split; [| done].
    eapply NoDup_lookup; [exact Hform | apply Hnumber, list_elem_of_here |].
    rewrite Heq. by apply Hnumber, list_elem_of_further.
  - apply IH; [done |]. intros c' Hc'. by apply Hnumber, list_elem_of_further.
Qed.

(** *** The snapshot *)

Lemma keepMoreComplete_elem_of kept r x :
  x ∈ keepMoreComplete kept r → x ∈ kept ∨ x = r.
Proof.
  induction kept as [| k rest IH]; simpl.
  - intros Hx. apply list_elem_of_singleton in Hx. by right.
  - destruct (decide (sameFixture normalize dayLength k r)) as [_ | _].
    + destruct (decide (completeness k < completeness r)); intros Hx;
        apply elem_of_cons in Hx as [-> | Hx]; auto using list_elem_of_here, list_elem_of_further.
    + intros Hx. apply elem_of_cons in Hx as [-> | Hx]; [left; apply list_elem_of_here |].
      destruct (IH Hx); auto using list_elem_of_further.
Qed.

Lemma dedupe_elem_of results x : x ∈ dedupe results → x ∈ results.
Proof.
  unfold Pipeline.dedupe.
  assert (∀ kept, x ∈ foldl keepMoreComplete kept results → x ∈ kept ∨ x ∈ results) as Hgen.
  { induction results as [| r rest IH]; intros kept; simpl; [by left |].
    intros Hx. destruct (IH _ Hx) as [Hkept | Hrest].
    - destruct (keepMoreComplete_elem_of _ _ _ Hkept) as [? | ->];
        [by left | right; apply list_elem_of_here].
    - right. by apply list_elem_of_further. }
  intros Hx. destruct (Hgen [] Hx) as [Hnil | ?]; [by apply elem_of_nil in Hnil | done].
Qed.

Lemma aggregate_fulfilled fetchers now windowDays :
  aggregate fetchers now windowDays
  = Fulfilled (dedupe (dateWindowFilter now windowDays (delivered fetchers))).
Proof.
  unfold Pipeline.aggregate. by rewrite mergeSources_fulfilled.
Qed.

(** C6: whatever the fetchers deliver, the snapshot handed to the
    matching engine holds no result with status [scheduled], and every
    candidate of the output names a result of that snapshot, hence one
    whose status is not [scheduled]. *)
Theorem scheduled_results_never_matched fetchers now windowDays questions :
  ∃ snapshot,
    aggregate fetchers now windowDays = Fulfilled snapshot
    ∧ pipeline fetchers now windowDays questions = Fulfilled (match_ questions snapshot)
    ∧ Forall (λ r, RawResult.status r ≠ scheduled) snapshot
    ∧ ∀ c, c ∈ match_ questions snapshot →
        ∃ r, snapshot !! MatchCandidate.resultIndex c = Some r
             ∧ RawResult.status r ≠ scheduled.
Proof.
  exists (dedupe (dateWindowFilter now windowDays (delivered fetchers))).
  assert (Forall (λ r, RawResult.status r ≠ scheduled)
            (dedupe (dateWindowFilter now windowDays (delivered fetchers)))) as Hsnapshot.
  { apply Forall_forall. intros r Hr. apply dedupe_elem_of in Hr.
    unfold Pipeline.dateWindowFilter in Hr. apply list_elem_of_filter in Hr as [[_ Hstatus] _].
    exact Hstatus. }
  split; [apply aggregate_fulfilled |]. split; [| split; [exact Hsnapshot |]].
  - unfold Pipeline.pipeline. by rewrite aggregate_fulfilled.
  - intros c Hc. apply match_lookup in Hc as (q & r & _ & Hr & _).
    exists r. split; [exact Hr |].
    eapply Forall_forall in Hsnapshot; [exact Hsnapshot |].
    by eapply list_elem_of_lookup_2.
Qed.

End EngineFacts.

End PipelineFacts.

(** ** The translation script as a whole *)

Module TranslationsScriptFacts.
Import Translations TranslationsFacts TranslationsScript.

(** *** Reading the files *)

Lemma readAll_unreadable (fs : gmap string jobject) files file :
  file ∈ files → fs !! path file = None →
  ∀ translations allKeys, readAll fs files translations allKeys = ProcessExit 1.
Proof.
  intros Hin Hnone. induction files as [| f rest IH]; [by apply elem_of_nil in Hin |].
  intros translations allKeys. simpl. unfold readTranslationFile.
  apply elem_of_cons in Hin as [<- | Hin]; [by rewrite Hnone |].
  destruct (fs !! path f); [by apply IH | done].
Qed.

Lemma readAll_ext fs1 fs2 files :
  (∀ file, file ∈ files → keysOfFile fs1 file = keysOfFile fs2 file) →
  ∀ translations allKeys,
    readAll fs1 files translations allKeys = readAll fs2 files translations allKeys.
Proof.
  induction files as [| f rest IH]; intros Hsame translations allKeys; [done |].
  simpl. unfold readTranslationFile.
  pose proof (Hsame f (list_elem_of_here _ _)) as Hf. unfold keysOfFile in Hf.
  destruct (fs1 !! path f) as [data1 |], (fs2 !! path f) as [data2 |];
    simpl in Hf; try done.
  injection Hf as ->. apply IH. intros file Hin. by apply Hsame, list_elem_of_further.
Qed.

Lemma readable_or_not (fs : gmap string jobject) (files : list TranslationFile) :
  Forall (λ file, is_Some (fs !! path file)) files
  ∨ ∃ file, file ∈ files ∧ fs !! path file = None.
Proof.
  induction files as [| f rest [IH | (file & Hin & Hnone)]].
  - left. constructor.
  - destruct (fs !! path f) as [data |] eqn:Hf.
    + left. constructor; [by rewrite Hf | done].
    + right. exists f. split; [apply list_elem_of_here | done].
  - right. exists file. split; [by apply list_elem_of_further | done].
Qed.

(** With distinct locale names and every file readable, the call
    returns, and it returns [true] exactly for files with the same
    keys. *)
Lemma validateTranslationSet_returns fs files setName :
  NoDup (locale <$> files) →
  Forall (λ file, is_Some (fs !! path file)) files →
  ∃ valid, validateTranslationSet fs files setName = Returns valid
           ∧ (valid = true ↔ sameKeysEverywhere fs files).
Proof.
  intros Hnodup Hread.
  destruct (readAll_returns fs files ∅ ∅ Hread) as (translations & Hrun & Hfrom & Hlookup).
  unfold validateTranslationSet. rewrite Hrun.
  pose proof (checkLocales_hasErrors translations (∅ ∪ unionKeys fs files)) as Hcheck.
  destruct (checkLocales translations (∅ ∪ unionKeys fs files)) as [hasErrors missingKeys].
  simpl in Hcheck. exists (negb hasErrors). split; [by destruct hasErrors |].
  rewrite negb_true_iff, Hcheck. split.
  - intros Hall file Hin. specialize (Hlookup Hnodup file Hin).
    destruct (keysOfFile fs file) as [keys |] eqn:Hkeys.
    + f_equal. apply leibniz_equiv, set_equiv_subseteq. split.
      * by eapply keysOfFile_subseteq.
      * specialize (Hall _ _ Hlookup). by rewrite (left_id ∅ (∪)) in Hall.
    + apply Forall_forall with (x := file) in Hread; [| done].
      unfold keysOfFile in Hkeys. destruct Hread as [data Hdata].
      by rewrite Hdata in Hkeys.
  - intros Hsame l keys Hl.
    destruct (Hfrom l keys Hl) as [(file & Hin & _ & Hkeys) | Hinit].
    + rewrite (Hsame file Hin) in Hkeys. injection Hkeys as <-.
      by rewrite (left_id ∅ (∪)).
    + by rewrite lookup_empty in Hinit.
Qed.

Lemma elem_of_missingIn allKeys keys key :
  key ∈ missingIn allKeys keys ↔ key ∈ allKeys ∧ key ∉ keys.
Proof.
  unfold missingIn. rewrite list_elem_of_filter, elem_of_elements. tauto.
Qed.

(** What the second loop leaves in its two accumulators. *)
Lemma checkLocales_spec translations allKeys :
  ((checkLocales translations allKeys).1 = true
   ↔ ∃ l keys, translations !! l = Some keys ∧ missingIn allKeys keys ≠ [])
  ∧ ∀ l missing,
      (checkLocales translations allKeys).2 !! l = Some missing
      ↔ ∃ keys, translations !! l = Some keys
                ∧ missing = missingIn allKeys keys ∧ missing ≠ [].
Proof.
  unfold checkLocales.
  apply (map_fold_weak_ind (λ acc m,
           (acc.1 = true ↔ ∃ l keys, m !! l = Some keys ∧ missingIn allKeys keys ≠ [])
           ∧ ∀ l missing,
               acc.2 !! l = Some missing
               ↔ ∃ keys, m !! l = Some keys
                         ∧ missing = missingIn allKeys keys ∧ missing ≠ [])).
  - split.
    + split; [done |]. intros (l & keys & Hl & _). by rewrite lookup_empty in Hl.
    + intros l missing. simpl. rewrite lookup_empty. split; [done |].
      intros (keys & Hl & _). by rewrite lookup_empty in Hl.
  - intros i keys m [hasErrors missingKeys] Hfresh [IHerr IHmap]. simpl in IHerr, IHmap.
    destruct (decide (0 < length (missingIn allKeys keys))) as [Hpos | Hzero]; simpl.
    + assert (missingIn allKeys keys ≠ []) as Hne
        by (intros Hnil; rewrite Hnil in Hpos; simpl in Hpos; lia).
      split.
      * split; [| done]. intros _. exists i, keys. by rewrite lookup_insert_eq.
      * intros l missing. destruct (decide (i = l)) as [<- | Hil].
        -- rewrite !lookup_insert_eq. split.
           ++ intros [= <-]. eauto.
           ++ intros (keys' & [= <-] & -> & _). done.
        -- rewrite !lookup_insert_ne by done. by rewrite IHmap.
    + assert (missingIn allKeys keys = []) as Hnil
        by (destruct (missingIn allKeys keys); [done | simpl in Hzero; lia]).
      split.
      * rewrite IHerr. split.
        -- intros (l & keys' & Hl & Hne). exists l, keys'. split; [| done].
           rewrite lookup_insert_ne; [done |]. intros <-. congruence.
        -- intros (l & keys' & Hl & Hne). destruct (decide (i = l)) as [<- | Hil].
           ++ rewrite lookup_insert_eq in Hl. injection Hl as <-. done.
           ++ rewrite lookup_insert_ne in Hl by done. eauto.
      * intros l missing. rewrite IHmap. destruct (decide (i = l)) as [<- | Hil].
        -- rewrite lookup_insert_eq, Hfresh. split.
           ++ intros (keys' & Hl & _). done.
           ++ intros (keys' & [= <-] & -> & Hne). done.
        -- by setoid_rewrite lookup_insert_ne.
Qed.

(** With distinct locale names, a run that returns [false] has a file
    that lacks a key of the union. *)
Lemma validateTranslationSet_false_inv fs files setName :
  Forall (λ file, is_Some (fs !! path file)) files →
  validateTranslationSet fs files setName = Returns false →
  ∃ file keys key,
    file ∈ files ∧ keysOfFile fs file = Some keys
    ∧ key ∈ unionKeys fs files ∧ key ∉ keys.
Proof.
  intros Hread.
  destruct (readAll_returns fs files ∅ ∅ Hread) as (translations & Hrun & Hfrom & _).
  unfold validateTranslationSet. rewrite Hrun.
  destruct (checkLocales_spec translations (∅ ∪ unionKeys fs files)) as [Herr _].
  destruct (checkLocales translations (∅ ∪ unionKeys fs files)) as [hasErrors missingKeys].
  simpl in Herr. destruct hasErrors; [| done]. intros _.
  destruct Herr as [Herr _]. destruct (Herr eq_refl) as (l & keys & Hl & Hne).
  destruct (missingIn (∅ ∪ unionKeys fs files) keys) as [| key rest] eqn:Hmissing; [done |].
  assert (key ∈ missingIn (∅ ∪ unionKeys fs files) keys) as Hkey
    by (rewrite Hmissing; apply list_elem_of_here).
  apply elem_of_missingIn in Hkey as [Hin Hnot].
  rewrite (left_id ∅ (∪)) in Hin.
  destruct (Hfrom l keys Hl) as [(file & Hfile & _ & Hkeys) | Hinit];
    [| by rewrite lookup_empty in Hinit].
  exists file, keys, key. done.
Qed.

Lemma validateTranslationSet_exits (fs : gmap string jobject) files setName file :
  file ∈ files → fs !! path file = None →
  validateTranslationSet fs files setName = ProcessExit 1.
Proof.
  intros Hin Hnone. unfold validateTranslationSet.
  by rewrite (readAll_unreadable fs files file Hin Hnone).
Qed.

Lemma sameKeysEverywhere_Permutation fs files files' :
  files ≡ₚ files' → sameKeysEverywhere fs files → sameKeysEverywhere fs files'.
Proof.
  intros Hperm Hsame file Hin. rewrite <- Hperm in Hin.
  rewrite (Hsame file Hin). f_equal. unfold unionKeys.
  apply leibniz_equiv. by rewrite Hperm.
Qed.

(** *** Keys *)

(** X1: the keys [extractKeys] returns are exactly the keys built, with
    the prefix rule of the code, along the paths that lead through
    nested objects to a value that is not one. *)
Theorem extractKeys_leaf_paths obj prefix k :
  k ∈ extractKeys obj prefix ↔ ∃ path, leafAt obj path ∧ k = joinPath prefix path.
Proof. apply extractKeys_spec. Qed.

(** X2: for an object none of whose top-level keys is the empty string,
    the keys returned are exactly the dot-notations of the leaf
    paths. *)
Theorem extractKeys_dot_joined obj k :
  "" ∉ (entries obj).*1 →
  k ∈ extractKeys obj "" ↔ ∃ path, leafAt obj path ∧ k = dotJoin path.
Proof. apply extractKeys_dot_notation. Qed.

Lemma extractKeys_dot_joined_witness :
("" ∉ (entries enTranslation).*1)
  ∧ ("modal.ok" ∈ extractKeys enTranslation ""
     ↔ ∃ path, leafAt enTranslation path ∧ "modal.ok" = dotJoin path).
Proof.
  assert ("" ∉ (entries enTranslation).*1) as Htop.
  { apply (bool_decide_unpack _). by vm_compute. }
  split; [exact Htop |]. exact (extractKeys_dot_joined enTranslation "modal.ok" Htop).
Defined.

(** X3: under a non-empty prefix, as in every recursive call below a
    non-empty key, the keys are the dot-notations of the leaf paths put
    after the prefix, whatever the keys of the object are. *)
Theorem extractKeys_under_prefix obj prefix k :
  prefix ≠ "" →
  k ∈ extractKeys obj prefix ↔ ∃ path, leafAt obj path ∧ k = dotJoin (prefix :: path).
Proof.
  intros Hne. rewrite extractKeys_spec.
  split; intros (path & Hleaf & ->); exists path; (split; [done |]);
    [| symmetry]; by apply joinPath_nonempty_prefix.
Qed.

Lemma extractKeys_under_prefix_witness :
  "modal" ≠ ""
  ∧ ("modal.ok" ∈ extractKeys (OCons "ok" (JStr "OK") ONil) "modal"
     ↔ ∃ path, leafAt (OCons "ok" (JStr "OK") ONil) path
               ∧ "modal.ok" = dotJoin ("modal" :: path)).
Proof.
  assert ("modal" ≠ "") as Hne by discriminate.
  split; [exact Hne |].
  exact (extractKeys_under_prefix (OCons "ok" (JStr "OK") ONil) "modal" "modal.ok" Hne).
Defined.

(** *** validateTranslationSet *)

(** X4: the outcome depends on the files only through their key sets:
    neither the translated values, nor the order of the keys, nor the
    name of the set matter, and a section that is an empty object is not
    seen at all. *)
Theorem validateTranslationSet_only_keys fs1 fs2 files setName1 setName2 :
  (∀ file, file ∈ files → keysOfFile fs1 file = keysOfFile fs2 file) →
  validateTranslationSet fs1 files setName1 = validateTranslationSet fs2 files setName2.
Proof.
  intros Hsame. unfold validateTranslationSet. by rewrite (readAll_ext fs1 fs2 files Hsame).
Qed.

Lemma validateTranslationSet_only_keys_witness :
  (∀ file, file ∈ exampleFiles →
     keysOfFile exampleFs file
     = keysOfFile (<["locales/es/translation.json" :=
                       OCons "empty" (JObj ONil) enTranslation]> exampleFs) file)
  ∧ validateTranslationSet exampleFs exampleFiles "Frontend"
    = validateTranslationSet
        (<["locales/es/translation.json" := OCons "empty" (JObj ONil) enTranslation]>
           exampleFs) exampleFiles "Mobile".
Proof.
  assert (∀ file, file ∈ exampleFiles →
            keysOfFile exampleFs file
            = keysOfFile (<["locales/es/translation.json" :=
                              OCons "empty" (JObj ONil) enTranslation]> exampleFs) file)
    as Hsame.
  { intros file Hin. unfold exampleFiles in Hin.
    apply elem_of_cons in Hin as [-> | Hin]; [by vm_compute |].
    apply list_elem_of_singleton in Hin as ->. by vm_compute. }
  split; [exact Hsame |].
  exact (validateTranslationSet_only_keys _ _ exampleFiles "Frontend" "Mobile" Hsame).
Defined.


(** X6: with distinct locale names, [false] is returned exactly when all
    files are read and some file lacks a key that another one has. *)
Theorem validateTranslationSet_false_iff fs files setName :
  NoDup (locale <$> files) →
  validateTranslationSet fs files setName = Returns false
  ↔ Forall (λ file, is_Some (fs !! path file)) files
    ∧ ∃ file keys key,
        file ∈ files ∧ keysOfFile fs file = Some keys
        ∧ key ∈ unionKeys fs files ∧ key ∉ keys.
Proof.
  intros Hnodup. destruct (readable_or_not fs files) as [Hread | (bad & Hbad & Hnone)].
  - destruct (validateTranslationSet_returns fs files setName Hnodup Hread)
      as (valid & Hrun & Hvalid).
    rewrite Hrun. split.
    + intros [= ->]. split; [done |].
      by eapply validateTranslationSet_false_inv.
    + intros (_ & file & keys & key & Hin & Hkeys & Hkey & Hmiss).
      destruct valid; [| done]. exfalso.
      assert (sameKeysEverywhere fs files) as Hsame by (by apply Hvalid).
      rewrite (Hsame file Hin) in Hkeys. injection Hkeys as <-. done.
  - rewrite (validateTranslationSet_exits fs files setName bad Hbad Hnone).
    split; [done |]. intros [Hread _].
    apply Forall_forall with (x := bad) in Hread as [data Hdata]; [| done]. congruence.
Qed.

Lemma validateTranslationSet_false_iff_witness :
  NoDup (locale <$> exampleFiles)
  ∧ (validateTranslationSet unsyncedFs exampleFiles "Frontend" = Returns false
     ↔ Forall (λ file, is_Some (unsyncedFs !! path file)) exampleFiles
       ∧ ∃ file keys key,
           file ∈ exampleFiles ∧ keysOfFile unsyncedFs file = Some keys
           ∧ key ∈ unionKeys unsyncedFs exampleFiles ∧ key ∉ keys).
Proof.
  assert (NoDup (locale <$> exampleFiles)) as Hnodup
    by (apply (bool_decide_unpack _); by vm_compute).
  split; [exact Hnodup |].
  exact (validateTranslationSet_false_iff unsyncedFs exampleFiles "Frontend" Hnodup).
Defined.

(** X7: with distinct locale names the order in which the files are
    listed does not matter. *)
Theorem validateTranslationSet_Permutation fs files files' setName :
  NoDup (locale <$> files) →
  files ≡ₚ files' →
  validateTranslationSet fs files setName = validateTranslationSet fs files' setName.
Proof.
  intros Hnodup Hperm.
  assert (NoDup (locale <$> files')) as Hnodup' by (by rewrite <- Hperm).
  destruct (readable_or_not fs files) as [Hread | (bad & Hbad & Hnone)].
  - assert (Forall (λ file, is_Some (fs !! path file)) files') as Hread'
      by (by rewrite <- Hperm).
    destruct (validateTranslationSet_returns fs files setName Hnodup Hread)
      as (valid & -> & Hvalid).
    destruct (validateTranslationSet_returns fs files' setName Hnodup' Hread')
      as (valid' & -> & Hvalid').
    f_equal. apply eq_true_iff_eq. rewrite Hvalid, Hvalid'.
    split; apply sameKeysEverywhere_Permutation; [done | by symmetry].
  - rewrite (validateTranslationSet_exits fs files setName bad Hbad Hnone).
    symmetry. eapply validateTranslationSet_exits; [| exact Hnone]. by rewrite <- Hperm.
Qed.

Lemma validateTranslationSet_Permutation_witness :
  NoDup (locale <$> exampleFiles)
  ∧ exampleFiles ≡ₚ reverse exampleFiles
  ∧ validateTranslationSet unsyncedFs exampleFiles "Frontend"
    = validateTranslationSet unsyncedFs (reverse exampleFiles) "Frontend".
Proof.
  assert (NoDup (locale <$> exampleFiles)) as Hnodup
    by (apply (bool_decide_unpack _); by vm_compute).
  assert (exampleFiles ≡ₚ reverse exampleFiles) as Hperm
    by (symmetry; apply reverse_Permutation).
  split; [exact Hnodup |]. split; [exact Hperm |].
  exact (validateTranslationSet_Permutation unsyncedFs exampleFiles
           (reverse exampleFiles) "Frontend" Hnodup Hperm).
Defined.

(** *** The printed report *)

Lemma elem_of_unionKeys (fs : gmap string jobject) files key :
  key ∈ unionKeys fs files
  ↔ ∃ file keys, file ∈ files ∧ keysOfFile fs file = Some keys ∧ key ∈ keys.
Proof.
  unfold unionKeys. rewrite elem_of_union_list. split.
  - intros (keys & Hkeys & Hkey). apply list_elem_of_omap in Hkeys as (file & Hin & Hsome).
    eauto.
  - intros (file & keys & Hin & Hsome & Hkey). exists keys. split; [| done].
    apply list_elem_of_omap. eauto.
Qed.

Lemma elem_of_extraIn translations locale keys key :
  key ∈ extraIn translations locale keys
  ↔ key ∈ keys
    ∧ ∃ other otherKeys,
        translations !! other = Some otherKeys ∧ other ≠ locale ∧ key ∉ otherKeys.
Proof.
  unfold extraIn, foundInAll. rewrite list_elem_of_filter, elem_of_elements.
  rewrite map_not_Forall by (intros; apply _). split.
  - intros [(other & otherKeys & Hother & Hnot) Hkey]. split; [done |].
    exists other, otherKeys. split; [done |]. split; [intros ->; tauto | tauto].
  - intros [Hkey (other & otherKeys & Hother & Hne & Hnot)]. split; [| done].
    exists other, otherKeys. split; [done |]. intros [-> | Hin]; tauto.
Qed.

(** X8: in a report printed for files with distinct locale names, a key
    is listed as missing in some locale exactly when it is listed as
    extra in some locale. *)
Theorem printedReport_missing_iff_extra fs files missing extra key :
  NoDup (locale <$> files) →
  printedReport fs files = Some (missing, extra) →
  (∃ l keys, missing !! l = Some keys ∧ key ∈ keys)
  ↔ (∃ l keys, extra !! l = Some keys ∧ key ∈ keys).
Proof.
  intros Hnodup. unfold printedReport.
  destruct (readable_or_not fs files) as [Hread | (bad & Hbad & Hnone)];
    [| by rewrite (readAll_unreadable fs files bad Hbad Hnone)].
  destruct (readAll_returns fs files ∅ ∅ Hread) as (translations & -> & Hfrom & Hlookup).
  specialize (Hlookup Hnodup).
  destruct (checkLocales_spec translations (∅ ∪ unionKeys fs files)) as [_ Hmissing].
  destruct (checkLocales translations (∅ ∪ unionKeys fs files)) as [hasErrors missingKeys].
  simpl in Hmissing. destruct hasErrors; [| done]. intros [= <- <-].
  assert (∀ l keys, translations !! l = Some keys →
            ∃ file, file ∈ files ∧ locale file = l ∧ keysOfFile fs file = Some keys)
    as Hfile.
  { intros l keys Hl. destruct (Hfrom l keys Hl) as [? | Hinit]; [done |].
    by rewrite lookup_empty in Hinit. }
  split.
  - intros (l & missing & Hl & Hkey). apply Hmissing in Hl as (keys & Hl & -> & _).
    apply elem_of_missingIn in Hkey as [Hunion Hnot].
    rewrite (left_id ∅ (∪)) in Hunion.
    apply elem_of_unionKeys in Hunion as (file & keys' & Hin & Hkeys' & Hkey').
    exists (locale file), (extraIn translations (locale file) keys'). split.
    + apply map_lookup_filter_Some. split.
      * rewrite map_lookup_imap, (Hlookup file Hin), Hkeys'. done.
      * simpl. intros Hnil.
        assert (key ∈ extraIn translations (locale file) keys') as Hextra.
        { apply elem_of_extraIn. split; [done |]. exists l, keys.
          split; [done |]. split; [| done]. intros ->.
          rewrite (Hlookup file Hin), Hkeys' in Hl. injection Hl as ->. done. }
        rewrite Hnil in Hextra. by apply elem_of_nil in Hextra.
    + apply elem_of_extraIn. split; [done |]. exists l, keys.
      split; [done |]. split; [| done]. intros ->.
      rewrite (Hlookup file Hin), Hkeys' in Hl. injection Hl as ->. done.
  - intros (l & extra & Hl & Hkey). apply map_lookup_filter_Some in Hl as [Hl _].
    rewrite map_lookup_imap in Hl.
    destruct (translations !! l) as [keys |] eqn:Hkeys; [| done].
    simpl in Hl. injection Hl as <-.
    apply elem_of_extraIn in Hkey as [Hkey (other & otherKeys & Hother & Hne & Hnot)].
    exists other, (missingIn (∅ ∪ unionKeys fs files) otherKeys).
    assert (key ∈ missingIn (∅ ∪ unionKeys fs files) otherKeys) as Hmiss.
    { apply elem_of_missingIn. split; [| done]. rewrite (left_id ∅ (∪)).
      destruct (Hfile l keys Hkeys) as (file & Hin & _ & Hfilekeys).
      apply elem_of_unionKeys. eauto. }
    split; [| done]. apply Hmissing. exists otherKeys. split; [done |]. split; [done |].
    intros Hnil. rewrite Hnil in Hmiss. by apply elem_of_nil in Hmiss.
Qed.

Lemma printedReport_missing_iff_extra_witness :
  NoDup (locale <$> exampleFiles)
  ∧ (∃ report, printedReport unsyncedFs exampleFiles = Some report)
  ∧ ∃ missing extra,
      printedReport unsyncedFs exampleFiles = Some (missing, extra)
      ∧ ((∃ l keys, missing !! l = Some keys ∧ "subtitle" ∈ keys)
         ↔ (∃ l keys, extra !! l = Some keys ∧ "subtitle" ∈ keys)).
Proof.
  assert (NoDup (locale <$> exampleFiles)) as Hnodup
    by (apply (bool_decide_unpack _); by vm_compute).
  destruct (printedReport unsyncedFs exampleFiles) as [[missing extra] |] eqn:Hreport;
    [| by vm_compute in Hreport].
  split; [exact Hnodup |]. split; [by eexists |].
  exists missing, extra. split; [done |].
  exact (printedReport_missing_iff_extra unsyncedFs exampleFiles missing extra
           "subtitle" Hnodup Hreport).
Defined.

(** *** Finding the files and running the script *)

Section ScriptFacts.

Variable join : list string → string.
Variable projectRoot : string.

Abbreviation findTranslationFiles := (findTranslationFiles join).
Abbreviation validateTranslations := (validateTranslations join projectRoot).

(** The files found in a listing. *)
Lemma found_files fs baseDir (entries : list Dirent) :
  let found := omap (λ entry,
      let translationPath := join [baseDir; name entry; "translation.json"] in
      if isDirectory entry && existsSync fs translationPath
      then Some {| locale := name entry; path := translationPath |}
      else None) entries in
  (NoDup (name <$> entries) → NoDup (locale <$> found))
  ∧ ∀ file, file ∈ found
      ↔ ∃ entry, entry ∈ entries ∧ isDirectory entry = true
                 ∧ existsSync fs (join [baseDir; name entry; "translation.json"]) = true
                 ∧ file = {| locale := name entry;
                             path := join [baseDir; name entry; "translation.json"] |}.
Proof.
  intros found. assert (∀ file, file ∈ found
      ↔ ∃ entry, entry ∈ entries ∧ isDirectory entry = true
                 ∧ existsSync fs (join [baseDir; name entry; "translation.json"]) = true
                 ∧ file = {| locale := name entry;
                             path := join [baseDir; name entry; "translation.json"] |})
    as Hmem.
  { intros file. unfold found. rewrite list_elem_of_omap. split.
    - intros (entry & Hin & Hsome). exists entry. split; [done |]. simpl in Hsome.
      destruct (isDirectory entry); [| done].
      destruct (existsSync fs _); [| done]. simpl in Hsome. by injection Hsome as <-.
    - intros (entry & Hin & Hdir & Hexists & ->). exists entry. split; [done |].
      simpl. by rewrite Hdir, Hexists. }
  split; [| exact Hmem]. clear Hmem. unfold found. clear found.
  induction entries as [| entry rest IH]; [constructor |].
  rewrite fmap_cons, NoDup_cons. intros [Hfresh Hnodup]. simpl.
  destruct (isDirectory entry && existsSync fs _); [| by apply IH].
  simpl. apply NoDup_cons. split; [| by apply IH].
  intros Hdup. apply Hfresh. apply list_elem_of_fmap in Hdup as (file & Hname & Hfile).
  apply list_elem_of_omap in Hfile as (other & Hother & Hsome).
  apply list_elem_of_fmap. exists other. split; [| done].
  destruct (isDirectory other && existsSync fs _); [| done].
  injection Hsome as <-. done.
Qed.


Lemma findTranslationFiles_returns_NoDup fs baseDir files :
  (∀ dir entries, readdirSync fs dir = Some entries → NoDup (name <$> entries)) →
  findTranslationFiles fs baseDir = Returns files → NoDup (locale <$> files).
Proof.
  intros Hlists. unfold TranslationsScript.findTranslationFiles.
  destruct (existsSync fs baseDir); simpl; [| intros [= <-]; constructor].
  destruct (readdirSync fs baseDir) as [entries |] eqn:Hlist; [| done].
  intros [= <-]. apply (found_files fs baseDir entries). by eapply Hlists.
Qed.

Lemma findTranslationFiles_cases fs baseDir :
  (∃ files, findTranslationFiles fs baseDir = Returns files)
  ∨ findTranslationFiles fs baseDir = ProcessExit 1.
Proof.
  unfold TranslationsScript.findTranslationFiles.
  destruct (existsSync fs baseDir); simpl; [| eauto].
  destruct (readdirSync fs baseDir); eauto.
Qed.

Lemma validateIfAny_spec fs files setName :
  NoDup (locale <$> files) →
  (validateIfAny fs files setName = Returns tt
   ∨ validateIfAny fs files setName = ProcessExit 1)
  ∧ (validateIfAny fs files setName = Returns tt ↔ sameKeysEverywhere (parsed fs) files).
Proof.
  intros Hnodup. unfold validateIfAny.
  destruct (decide (0 < length files)) as [Hsome | Hnone].
  - destruct (readable_or_not (parsed fs) files) as [Hread | (bad & Hbad & Hbadnone)].
    + destruct (validateTranslationSet_returns (parsed fs) files setName Hnodup Hread)
        as (valid & -> & Hvalid). simpl.
      destruct valid; split; auto.
      * split; [intros _; by apply Hvalid | done].
      * split; [done |]. intros Hsame. by apply Hvalid in Hsame.
    + rewrite (validateTranslationSet_exits _ _ _ bad Hbad Hbadnone). simpl.
      split; [by right |]. split; [done |]. intros Hsame.
      specialize (Hsame bad Hbad). unfold keysOfFile in Hsame. by rewrite Hbadnone in Hsame.
  - split; [by left |]. split; [| done]. intros _ file Hin.
    destruct files; [by apply elem_of_nil in Hin | simpl in Hnone; lia].
Qed.

(** X10: on a disk whose directories list distinct names, the script
    either returns or exits with code 1, and it returns exactly when
    both searches return, at least one of them found a file, and each
    set of files found has the same keys everywhere. *)
Theorem validateTranslations_succeeds_iff fs :
  (∀ dir entries, readdirSync fs dir = Some entries → NoDup (name <$> entries)) →
  (validateTranslations fs = Returns tt ∨ validateTranslations fs = ProcessExit 1)
  ∧ (validateTranslations fs = Returns tt
     ↔ ∃ feFiles mobileFiles,
         findTranslationFiles fs (join [projectRoot; "quinipolo-fe"; "src"; "locales"])
         = Returns feFiles
         ∧ findTranslationFiles fs
             (join [projectRoot; "quinipolo-mobile"; "src"; "locales"])
           = Returns mobileFiles
         ∧ (feFiles ≠ [] ∨ mobileFiles ≠ [])
         ∧ sameKeysEverywhere (parsed fs) feFiles
         ∧ sameKeysEverywhere (parsed fs) mobileFiles).
Proof.
  intros Hlists. unfold TranslationsScript.validateTranslations. cbv zeta.
  destruct (findTranslationFiles_cases fs
              (join [projectRoot; "quinipolo-fe"; "src"; "locales"]))
    as [[feFiles Hfe] | Hfe]; rewrite Hfe; simpl;
    [| split; [by right |]; split; [done | by intros (? & ? & ? & _)]].
  destruct (findTranslationFiles_cases fs
              (join [projectRoot; "quinipolo-mobile"; "src"; "locales"]))
    as [[mobileFiles Hmobile] | Hmobile]; rewrite Hmobile; simpl;
    [| split; [by right |]; split; [done | by intros (? & ? & ? & ? & _)]].
  pose proof (findTranslationFiles_returns_NoDup _ _ _ Hlists Hfe) as Hfedistinct.
  pose proof (findTranslationFiles_returns_NoDup _ _ _ Hlists Hmobile) as Hmobiledistinct.
  destruct (validateIfAny_spec fs feFiles "Frontend" Hfedistinct) as [Hfecases Hfeiff].
  destruct (validateIfAny_spec fs mobileFiles "Mobile" Hmobiledistinct)
    as [Hmobilecases Hmobileiff].
  destruct (decide (length feFiles = 0 ∧ length mobileFiles = 0)) as [[Hf Hm] | Hany].
  - split; [by right |]. split; [done |].
    intros (fe & mobile & [= <-] & [= <-] & [Hne | Hne] & _); exfalso; apply Hne;
      by apply nil_length_inv.
  - assert (feFiles ≠ [] ∨ mobileFiles ≠ []) as Hsome.
    { destruct feFiles; [| by left]. destruct mobileFiles; [| by right].
      exfalso. by apply Hany. }
    destruct Hfecases as [Hferun | Hferun]; rewrite Hferun; simpl.
    + destruct Hmobilecases as [Hmobilerun | Hmobilerun]; rewrite Hmobilerun; simpl.
      * split; [by left |]. split; [| done]. intros _.
        exists feFiles, mobileFiles. repeat split; try done;
          [by apply Hfeiff | by apply Hmobileiff].
      * split; [by right |]. split; [done |].
        intros (fe & mobile & _ & [= <-] & _ & _ & Hsame).
        apply Hmobileiff in Hsame. congruence.
    + split; [by right |]. split; [done |].
      intros (fe & mobile & [= <-] & _ & _ & Hsame & _).
      apply Hfeiff in Hsame. congruence.
Qed.

End ScriptFacts.


Lemma exampleDisk_listings dir entries :
  readdirSync exampleDisk dir = Some entries → NoDup (name <$> entries).
Proof.
  simpl. destruct (decide (dir = "/repo/quinipolo-fe/src/locales")); [| done].
  intros [= <-]. apply (bool_decide_unpack _). by vm_compute.
Defined.

Lemma validateTranslations_succeeds_iff_witness :
  (∀ dir entries, readdirSync exampleDisk dir = Some entries → NoDup (name <$> entries))
  ∧ (validateTranslations simpleJoin "/repo" exampleDisk = Returns tt
     ∨ validateTranslations simpleJoin "/repo" exampleDisk = ProcessExit 1)
  ∧ validateTranslations simpleJoin "/repo" exampleDisk = Returns tt.
Proof.
  split; [exact exampleDisk_listings |].
  destruct (validateTranslations_succeeds_iff simpleJoin "/repo" exampleDisk
              exampleDisk_listings) as [Hcases _].
  split; [exact Hcases |]. by vm_compute.
Defined.

End TranslationsScriptFacts.

(** ** More on auto-fill *)

Module AutoFillMoreFacts.
Import AutoFill AutoFillFacts AnswersForm.

(** *** Arrays *)

Lemma length_arraySet (arr : AnswersArray) i x :
  length (arraySet arr i x) = length arr `max` S i.
Proof.
  unfold arraySet. destruct (decide (i < length arr)).
  - rewrite length_insert. lia.
  - rewrite !length_app, length_replicate. simpl. lia.
Qed.

Lemma lookup_arraySet (arr : AnswersArray) i j x :
  arraySet arr i x !! j
  = if decide (j = i) then Some (Some x)
    else if decide (j < length arr) then arr !! j
    else if decide (j < i) then Some None
    else None.
Proof.
  unfold arraySet. destruct (decide (i < length arr)) as [Hi | Hi].
  - destruct (decide (j = i)) as [-> | Hne]; [by rewrite list_lookup_insert_eq |].
    rewrite list_lookup_insert_ne by done.
    destruct (decide (j < length arr)); [done |].
    rewrite lookup_ge_None_2 by lia. destruct (decide (j < i)); [lia | done].
  - destruct (decide (j = i)) as [-> | Hne].
    + rewrite lookup_app_r by lia. rewrite lookup_app_r; rewrite length_replicate; [| lia].
      by replace (i - length arr - (i - length arr)) with 0 by lia.
    + destruct (decide (j < length arr)); [by rewrite lookup_app_l |].
      rewrite lookup_app_r by lia. destruct (decide (j < i)).
      * rewrite lookup_app_l by (rewrite length_replicate; lia).
        rewrite lookup_replicate_2; [done | lia].
      * rewrite lookup_app_r; rewrite length_replicate; [| lia].
        apply lookup_ge_None_2. simpl. lia.
Qed.

Lemma arraySet_arraySet_eq (arr : AnswersArray) i x y :
  arraySet (arraySet arr i x) i y = arraySet arr i y.
Proof.
  apply list_eq. intros j. rewrite !lookup_arraySet, length_arraySet.
  repeat case_decide; try done; lia.
Qed.

Lemma arraySet_comm (arr : AnswersArray) i j x y :
  i ≠ j → arraySet (arraySet arr i x) j y = arraySet (arraySet arr j y) i x.
Proof.
  intros Hne. apply list_eq. intros k. rewrite !lookup_arraySet, !length_arraySet.
  repeat case_decide; try done; lia.
Qed.

(** *** One result *)

(** A result for one of the slots 1 to 15 amounts to one assignment. *)
Lemma applyResult_arraySet quinipolo arr result :
  (1 <= MatchResult.matchNumber result <= 15)%Z →
  applyResult quinipolo arr result
  = arraySet arr (Z.to_nat (MatchResult.matchNumber result - 1))
      (written quinipolo arr result).
Proof.
  intros Hrange. unfold applyResult, written.
  destruct (decide (_ ∨ _)) as [Hout | _]; [lia |]. cbv zeta.
  destruct (decide (MatchResult.matchNumber result - 1 = 14)%Z) as [H14 | Hn14]; [| done].
  rewrite H14. change (Z.to_nat 14) with 14.
  destruct (effectiveScores result) as [homeScore awayScore]. simpl.
  by rewrite arrayGet_arraySet_eq, arraySet_arraySet_eq.
Qed.

Lemma applyResult_cases quinipolo arr result :
  ((MatchResult.matchNumber result < 1 ∨ 15 < MatchResult.matchNumber result)%Z
   ∧ applyResult quinipolo arr result = arr)
  ∨ ((1 <= MatchResult.matchNumber result <= 15)%Z
     ∧ applyResult quinipolo arr result
       = arraySet arr (Z.to_nat (MatchResult.matchNumber result - 1))
           (written quinipolo arr result)).
Proof.
  destruct (decide (1 <= MatchResult.matchNumber result <= 15)%Z) as [Hin | Hout].
  - right. split; [done |]. by apply applyResult_arraySet.
  - left. split; [lia |]. apply applyResult_skip. lia.
Qed.

(** What a result writes depends on the array only through the slot it
    addresses. *)
Lemma written_ext quinipolo arr1 arr2 result :
  arrayGet arr1 (Z.to_nat (MatchResult.matchNumber result - 1))
  = arrayGet arr2 (Z.to_nat (MatchResult.matchNumber result - 1)) →
  written quinipolo arr1 result = written quinipolo arr2 result.
Proof. intros Hslot. unfold written. by rewrite Hslot. Qed.

Lemma applyResult_comm quinipolo arr r1 r2 :
  MatchResult.matchNumber r1 ≠ MatchResult.matchNumber r2 →
  applyResult quinipolo (applyResult quinipolo arr r1) r2
  = applyResult quinipolo (applyResult quinipolo arr r2) r1.
Proof.
  intros Hne.
  destruct (applyResult_cases quinipolo arr r1) as [[Hout1 Hr1] | [Hin1 Hr1]].
  { rewrite Hr1. by rewrite (applyResult_skip _ (applyResult quinipolo arr r2) r1). }
  destruct (applyResult_cases quinipolo arr r2) as [[Hout2 Hr2] | [Hin2 Hr2]].
  { rewrite Hr2. by rewrite (applyResult_skip _ (applyResult quinipolo arr r1) r2). }
  rewrite (applyResult_arraySet _ (applyResult quinipolo arr r1) r2) by done.
  rewrite (applyResult_arraySet _ (applyResult quinipolo arr r2) r1) by done.
  rewrite (written_ext quinipolo (applyResult quinipolo arr r1) arr r2)
    by (apply applyResult_other; lia).
  rewrite (written_ext quinipolo (applyResult quinipolo arr r2) arr r1)
    by (apply applyResult_other; lia).
  rewrite Hr1, Hr2. apply arraySet_comm. lia.
Qed.

(** *** Size of the array *)

Lemma length_applyResult quinipolo arr result :
  length arr ≤ length (applyResult quinipolo arr result)
  ∧ length (applyResult quinipolo arr result) ≤ length arr `max` 15.
Proof.
  destruct (applyResult_cases quinipolo arr result) as [[_ ->] | [Hin ->]]; [lia |].
  rewrite length_arraySet. lia.
Qed.

(** X11: auto-fill never shortens the array of answers and never makes
    it longer than fifteen slots, unless it was longer already. *)
Theorem applyAutoFillResults_length matches currentAnswers quinipolo :
  length currentAnswers
  ≤ length (applyAutoFillResults matches currentAnswers quinipolo)
  ∧ length (applyAutoFillResults matches currentAnswers quinipolo)
    ≤ length currentAnswers `max` 15.
Proof.
  revert currentAnswers. unfold applyAutoFillResults.
  induction matches as [| result rest IH]; intros arr; simpl; [lia |].
  specialize (IH (applyResult quinipolo arr result)).
  pose proof (length_applyResult quinipolo arr result). lia.
Qed.

Lemma applyResult_dense quinipolo (answers : list Answer.t) result :
  15 ≤ length answers →
  ∃ answers', applyResult quinipolo (Some <$> answers) result = Some <$> answers'
              ∧ length answers' = length answers.
Proof.
  intros Hlen.
  destruct (applyResult_cases quinipolo (Some <$> answers) result) as [[_ ->] | [Hin ->]];
    [by exists answers |].
  exists (<[Z.to_nat (MatchResult.matchNumber result - 1) :=
             written quinipolo (Some <$> answers) result]> answers).
  split; [| by rewrite length_insert].
  unfold arraySet. rewrite length_fmap.
  destruct (decide (_ < _)) as [_ | Hge]; [| lia]. by rewrite list_fmap_insert.
Qed.

Lemma applyAutoFillResults_dense_fmap matches quinipolo :
  ∀ answers : list Answer.t,
    15 ≤ length answers →
    ∃ answers',
      applyAutoFillResults matches (Some <$> answers) quinipolo = Some <$> answers'
      ∧ length answers' = length answers.
Proof.
  unfold applyAutoFillResults.
  induction matches as [| result rest IH]; intros answers Hlen; simpl; [by exists answers |].
  destruct (applyResult_dense quinipolo answers result Hlen) as (answers1 & -> & Hlen1).
  destruct (IH answers1) as (answers' & -> & Hlen'); [lia |].
  exists answers'. split; [done | lia].
Qed.

(** X12: a form of fifteen answers (or more) without empty slots remains
    one: auto-fill keeps its length and leaves no slot empty. *)
Theorem applyAutoFillResults_dense matches (answers : list Answer.t) quinipolo :
  15 ≤ length answers →
  ∃ answers',
    applyAutoFillResults matches (Some <$> answers) quinipolo = Some <$> answers'
    ∧ length answers' = length answers.
Proof. apply applyAutoFillResults_dense_fmap. Qed.

Lemma applyAutoFillResults_dense_witness :
  15 ≤ length initialAnswers
  ∧ ∃ answers',
      applyAutoFillResults [homeWinResult; shootoutResult] (Some <$> initialAnswers)
        (formOf waterpolo) = Some <$> answers'
      ∧ length answers' = length initialAnswers.
Proof.
  assert (Hlen : 15 ≤ length initialAnswers) by (vm_compute; lia).
  split; [exact Hlen |].
  exact (applyAutoFillResults_dense [homeWinResult; shootoutResult] initialAnswers
           (formOf waterpolo) Hlen).
Defined.

(** *** Order and repetition of the results *)

Lemma applyAutoFillResults_perm quinipolo matches matches' :
  matches ≡ₚ matches' →
  NoDup (MatchResult.matchNumber <$> matches) →
  ∀ arr, applyAutoFillResults matches arr quinipolo
         = applyAutoFillResults matches' arr quinipolo.
Proof.
  unfold applyAutoFillResults.
  induction 1 as [| x l l' Hp IH | x y l | l1 l2 l3 H1 IH1 H2 IH2]; intros Hnd arr; simpl.
  - done.
  - apply IH. rewrite fmap_cons in Hnd. by apply NoDup_cons in Hnd as [_ ?].
  - f_equal. apply applyResult_comm.
    rewrite !fmap_cons in Hnd. apply NoDup_cons in Hnd as [Hin _].
    intros Heq. apply Hin. rewrite Heq. left.
  - rewrite IH1 by done. apply IH2. by rewrite <- H1.
Qed.

(** X13: when no two results address the same match, the order in which
    the results are passed does not matter. *)
Theorem applyAutoFillResults_Permutation matches matches' currentAnswers quinipolo :
  NoDup (MatchResult.matchNumber <$> matches) →
  matches ≡ₚ matches' →
  applyAutoFillResults matches currentAnswers quinipolo
  = applyAutoFillResults matches' currentAnswers quinipolo.
Proof. intros Hnd Hp. by apply applyAutoFillResults_perm. Qed.

Lemma applyAutoFillResults_Permutation_witness :
  NoDup (MatchResult.matchNumber <$> [homeWinResult; shootoutResult])
  ∧ [homeWinResult; shootoutResult] ≡ₚ [shootoutResult; homeWinResult]
  ∧ applyAutoFillResults [homeWinResult; shootoutResult] createInitialAnswers
      (formOf waterpolo)
    = applyAutoFillResults [shootoutResult; homeWinResult] createInitialAnswers
        (formOf waterpolo).
Proof.
  assert (Hnd : NoDup (MatchResult.matchNumber <$> [homeWinResult; shootoutResult])).
  { simpl. apply NoDup_cons. split; [rewrite list_elem_of_singleton; lia |].
    apply NoDup_singleton. }
  assert (Hp : [homeWinResult; shootoutResult] ≡ₚ [shootoutResult; homeWinResult])
    by apply perm_swap.
  split; [exact Hnd |]. split; [exact Hp |].
  exact (applyAutoFillResults_Permutation _ _ createInitialAnswers (formOf waterpolo)
           Hnd Hp).
Defined.

Lemma spread_goals slot :
  (Answer.goalsHomeTeam (spread slot), Answer.goalsAwayTeam (spread slot))
  = goalsOf slot.
Proof. by destruct slot. Qed.


Lemma written_winner quinipolo arr result :
  Answer.chosenWinner (written quinipolo arr result)
  = Some (chooseWinner quinipolo result
            (Z.to_nat (MatchResult.matchNumber result - 1))).
Proof. unfold written. by destruct (decide _). Qed.

Lemma written_goals quinipolo arr result :
  MatchResult.matchNumber result ≠ 15%Z →
  goalsOf (Some (written quinipolo arr result))
  = goalsOf (arrayGet arr (Z.to_nat (MatchResult.matchNumber result - 1))).
Proof.
  intros Hne. unfold written.
  destruct (decide _) as [H14 | H14]; [lia |].
  by rewrite <- (spread_goals (arrayGet arr _)).
Qed.

Lemma written_goals_15 quinipolo arr result :
  MatchResult.matchNumber result = 15%Z →
  goalsOf (Some (written quinipolo arr result))
  = (Some (scoreToGoalRange (effectiveScores result).1),
     Some (scoreToGoalRange (effectiveScores result).2)).
Proof.
  intros H15. unfold written.
  destruct (decide _) as [H14 | H14]; [done | lia].
Qed.

Lemma applyAutoFillResults_snoc matches result arr quinipolo :
  applyAutoFillResults (matches ++ [result]) arr quinipolo
  = applyResult quinipolo (applyAutoFillResults matches arr quinipolo) result.
Proof. by rewrite applyAutoFillResults_app. Qed.






(** *** What auto-fill writes *)

Lemma chooseWinner_writable quinipolo result i :
  writableWinner quinipolo i (Some (chooseWinner quinipolo result i)).
Proof.
  unfold writableWinner, chooseWinner.
  destruct (decide _) as [_ | _]; [by left |].
  destruct (Quinipolo.quinipolo quinipolo !! i) as [quinipoloMatch |] eqn:Hq;
    [| by right; left].
  destruct (decide _) as [_ | _]; [right; right; exists quinipoloMatch; auto |].
  destruct (decide _) as [_ | _]; [right; right; exists quinipoloMatch; auto |].
  by right; left.
Qed.

Lemma applyResult_winner quinipolo arr result j slot :
  arrayGet (applyResult quinipolo arr result) j = Some slot →
  arrayGet arr j = Some slot ∨ writableWinner quinipolo j (Answer.chosenWinner slot).
Proof.
  destruct (applyResult_cases quinipolo arr result) as [[Hout ->] | [Hin ->]]; [by left |].
  destruct (decide (Z.to_nat (MatchResult.matchNumber result - 1) = j)) as [<- | Hne].
  - rewrite arrayGet_arraySet_eq. intros [= <-]. right.
    rewrite written_winner. apply chooseWinner_writable.
  - rewrite arrayGet_arraySet_ne by done. by left.
Qed.

(** X15: whatever the results say, an answer found in the array after
    auto-fill is the answer that was there before, or its winner is
    ["empat"], a team of the question of its slot, or the empty string. *)
Theorem applyAutoFillResults_winner matches currentAnswers quinipolo j slot :
  arrayGet (applyAutoFillResults matches currentAnswers quinipolo) j = Some slot →
  arrayGet currentAnswers j = Some slot
  ∨ writableWinner quinipolo j (Answer.chosenWinner slot).
Proof.
  revert slot.
  induction matches as [| result matches IH] using rev_ind; intros slot; [by left |].
  rewrite applyAutoFillResults_snoc.
  intros Hslot. apply applyResult_winner in Hslot as [Hslot | Hslot]; [| by right].
  by apply IH.
Qed.

Lemma applyAutoFillResults_winner_witness :
  arrayGet (applyAutoFillResults [strangerResult; homeWinResult] createInitialAnswers
              (formOf waterpolo)) 2
  = Some {| Answer.matchNumber := Some 3%Z; Answer.chosenWinner := Some "Home";
            Answer.isGame15 := Some false;
            Answer.goalsHomeTeam := Some ""; Answer.goalsAwayTeam := Some "" |}
  ∧ (arrayGet createInitialAnswers 2
     = Some {| Answer.matchNumber := Some 3%Z; Answer.chosenWinner := Some "Home";
               Answer.isGame15 := Some false;
               Answer.goalsHomeTeam := Some ""; Answer.goalsAwayTeam := Some "" |}
     ∨ writableWinner (formOf waterpolo) 2 (Some "Home")).
Proof.
  assert (Hslot :
    arrayGet (applyAutoFillResults [strangerResult; homeWinResult] createInitialAnswers
                (formOf waterpolo)) 2
    = Some {| Answer.matchNumber := Some 3%Z; Answer.chosenWinner := Some "Home";
              Answer.isGame15 := Some false;
              Answer.goalsHomeTeam := Some ""; Answer.goalsAwayTeam := Some "" |})
    by reflexivity.
  split; [exact Hslot |].
  exact (applyAutoFillResults_winner _ _ _ _ _ Hslot).
Defined.

Lemma applyResult_goals_frame quinipolo arr result j :
  j ≠ 14 →
  goalsOf (arrayGet (applyResult quinipolo arr result) j) = goalsOf (arrayGet arr j).
Proof.
  intros H14.
  destruct (applyResult_cases quinipolo arr result) as [[Hout ->] | [Hin ->]]; [done |].
  destruct (decide (Z.to_nat (MatchResult.matchNumber result - 1) = j)) as [<- | Hne].
  - rewrite arrayGet_arraySet_eq. apply written_goals. lia.
  - by rewrite arrayGet_arraySet_ne.
Qed.

Lemma applyResult_goals_15 quinipolo arr result :
  goalsOf (arrayGet (applyResult quinipolo arr result) 14) = goalsOf (arrayGet arr 14)
  ∨ (MatchResult.matchNumber result = 15%Z
     ∧ goalsOf (arrayGet (applyResult quinipolo arr result) 14)
       = (Some (scoreToGoalRange (effectiveScores result).1),
          Some (scoreToGoalRange (effectiveScores result).2))).
Proof.
  destruct (applyResult_cases quinipolo arr result) as [[Hout ->] | [Hin ->]]; [by left |].
  destruct (decide (MatchResult.matchNumber result = 15%Z)) as [H15 | H15].
  - right. split; [done |]. rewrite H15. change (Z.to_nat (15 - 1)) with 14.
    rewrite arrayGet_arraySet_eq. by apply written_goals_15.
  - left. rewrite arrayGet_arraySet_ne by lia. done.
Qed.

(** X16: auto-fill never touches the goals of a slot other than that of
    game 15; the goals of game 15 are those it had, or the ranges of the
    effective scores of a result for match 15. *)
Theorem applyAutoFillResults_goals_only_game15 matches currentAnswers quinipolo :
  (∀ j, j ≠ 14 →
     goalsOf (arrayGet (applyAutoFillResults matches currentAnswers quinipolo) j)
     = goalsOf (arrayGet currentAnswers j))
  ∧ (goalsOf (arrayGet (applyAutoFillResults matches currentAnswers quinipolo) 14)
     = goalsOf (arrayGet currentAnswers 14)
     ∨ ∃ result, result ∈ matches ∧ MatchResult.matchNumber result = 15%Z
         ∧ goalsOf (arrayGet (applyAutoFillResults matches currentAnswers quinipolo) 14)
           = (Some (scoreToGoalRange (effectiveScores result).1),
              Some (scoreToGoalRange (effectiveScores result).2))).
Proof.
  induction matches as [| result matches [IH1 IH2]] using rev_ind; [by split; [| left] |].
  rewrite applyAutoFillResults_snoc.
  split.
  - intros j H14. rewrite applyResult_goals_frame by done. by apply IH1.
  - destruct (applyResult_goals_15 quinipolo
                (applyAutoFillResults matches currentAnswers quinipolo) result)
      as [-> | [H15 ->]].
    + destruct IH2 as [-> | (earlier & Hin & H15 & ->)]; [by left |].
      right. exists earlier. split; [| done]. apply elem_of_app. by left.
    + right. exists result. split; [| done]. apply elem_of_app. right. left.
Qed.

Lemma applyAutoFillResults_goals_only_game15_witness :
  (∀ j, j ≠ 14 →
     goalsOf (arrayGet (applyAutoFillResults [homeWinResult; longShootoutResult]
                          createInitialAnswers (formOf waterpolo)) j)
     = goalsOf (arrayGet createInitialAnswers j))
  ∧ goalsOf (arrayGet (applyAutoFillResults [homeWinResult; longShootoutResult]
                         createInitialAnswers (formOf waterpolo)) 14)
    = (Some "11/12", Some "11/12").
Proof.
  split; [| reflexivity].
  exact (proj1 (applyAutoFillResults_goals_only_game15
                  [homeWinResult; longShootoutResult] createInitialAnswers
                  (formOf waterpolo))).
Defined.

Lemma applyResult_wellNumbered quinipolo arr result :
  wellNumbered arr → wellNumbered (applyResult quinipolo arr result).
Proof.
  intros Hwell j slot.
  destruct (applyResult_cases quinipolo arr result) as [[Hout ->] | [Hin ->]];
    [apply Hwell |].
  destruct (decide (Z.to_nat (MatchResult.matchNumber result - 1) = j)) as [<- | Hne].
  - rewrite arrayGet_arraySet_eq. intros [= <-]. unfold written.
    destruct (decide _) as [H14 | H14]; simpl.
    + split; [f_equal; lia |]. f_equal. rewrite !bool_decide_eq_true_2; [done | lia | done].
    + split; [f_equal; lia |]. f_equal. rewrite !bool_decide_eq_false_2; [done | lia | done].
  - rewrite arrayGet_arraySet_ne by done. apply Hwell.
Qed.

(** X17: auto-fill keeps the numbering of the form: if every answer
    carries the number of its slot and the flag of game 15, so does every
    answer afterwards, whatever match numbers the results carry. *)
Theorem applyAutoFillResults_wellNumbered matches currentAnswers quinipolo :
  wellNumbered currentAnswers →
  wellNumbered (applyAutoFillResults matches currentAnswers quinipolo).
Proof.
  revert currentAnswers. unfold applyAutoFillResults.
  induction matches as [| result rest IH]; intros arr Hwell; simpl; [done |].
  apply IH. by apply applyResult_wellNumbered.
Qed.

Lemma createInitialAnswers_wellNumbered : wellNumbered createInitialAnswers.
Proof.
  intros j slot.
  do 15 (destruct j as [| j]; [by intros [= <-] |]).
  unfold arrayGet. by destruct j.
Defined.

Lemma applyAutoFillResults_wellNumbered_witness :
  wellNumbered createInitialAnswers
  ∧ wellNumbered (applyAutoFillResults [homeWinResult; shootoutResult]
                    createInitialAnswers (formOf waterpolo)).
Proof.
  split; [exact createInitialAnswers_wellNumbered |].
  exact (applyAutoFillResults_wellNumbered [homeWinResult; shootoutResult]
           createInitialAnswers (formOf waterpolo) createInitialAnswers_wellNumbered).
Defined.

End AutoFillMoreFacts.

(** ** The answers form *)

Module AnswersFormFacts.
Import AutoFill AutoFillFacts AutoFillMoreFacts AnswersForm.

(** *** [findMissingAnswers] *)

Lemma findMissingAnswers_index (answers : list Answer.t) :
  (foldl (λ '(missing, idx) ans,
            (if isMissingAt idx ans then missing ++ [idx] else missing, S idx))
     ([], 0) answers).2 = length answers.
Proof.
  induction answers as [| a answers IH] using rev_ind; [done |].
  rewrite foldl_snoc, length_app. simpl.
  destruct (foldl _ _ answers) as [missing idx]. simpl in *. lia.
Qed.

Lemma findMissingAnswers_snoc answers a :
  findMissingAnswers (answers ++ [a])
  = findMissingAnswers answers
    ++ (if isMissingAt (length answers) a then [length answers] else []).
Proof.
  unfold findMissingAnswers. rewrite foldl_snoc.
  pose proof (findMissingAnswers_index answers) as Hidx.
  destruct (foldl _ _ answers) as [missing idx]. simpl in *. subst idx.
  destruct (isMissingAt _ _); simpl; by rewrite ?app_nil_r.
Qed.

Lemma elem_of_findMissingAnswers answers i :
  i ∈ findMissingAnswers answers
  ↔ ∃ ans, answers !! i = Some ans ∧ isMissingAt i ans = true.
Proof.
  induction answers as [| a answers IH] using rev_ind.
  - split; [by intros ?%elem_of_nil | by intros (? & ? & _)].
  - rewrite findMissingAnswers_snoc, elem_of_app, IH. split.
    + intros [(ans & Hans & Hmissing) | Hlast].
      * exists ans. split; [| done]. by apply lookup_app_l_Some.
      * destruct (isMissingAt (length answers) a) eqn:Hmissing;
          [| by apply elem_of_nil in Hlast].
        apply list_elem_of_singleton in Hlast as ->.
        exists a. split; [| done]. by rewrite list_lookup_middle.
    + intros (ans & Hans & Hmissing).
      apply lookup_app_Some in Hans as [Hans | [Hge Hans]];
        [left; by exists ans |].
      right. destruct (i - length answers) as [| k] eqn:Hk; [| done].
      injection Hans as <-. assert (i = length answers) as -> by lia.
      rewrite Hmissing. left.
Qed.

Lemma findMissingAnswers_lt answers i :
  i ∈ findMissingAnswers answers → i < length answers.
Proof.
  intros (ans & Hans & _)%elem_of_findMissingAnswers. by apply lookup_lt_Some in Hans.
Qed.

Lemma findMissingAnswers_sorted answers : StronglySorted lt (findMissingAnswers answers).
Proof.
  induction answers as [| a answers IH] using rev_ind; [constructor |].
  rewrite findMissingAnswers_snoc. apply StronglySorted_app_2; [| done |].
  - intros i j Hi%findMissingAnswers_lt Hj.
    destruct (isMissingAt _ _); [| by apply elem_of_nil in Hj].
    by apply list_elem_of_singleton in Hj as ->.
  - destruct (isMissingAt _ _); repeat constructor.
Qed.

Lemma isMissingAt_true i ans :
  isMissingAt i ans = true
  ↔ truthy (Answer.chosenWinner ans) = false
    ∨ (i = 14 ∧ (truthy (Answer.goalsHomeTeam ans) = false
                 ∨ truthy (Answer.goalsAwayTeam ans) = false)).
Proof.
  unfold isMissingAt. destruct (decide (i = 14)) as [-> | Hne].
  - destruct (truthy (Answer.chosenWinner ans)),
             (truthy (Answer.goalsHomeTeam ans)),
             (truthy (Answer.goalsAwayTeam ans)); simpl; intuition congruence.
  - destruct (truthy (Answer.chosenWinner ans)); simpl; intuition congruence.
Qed.

(** X18: [findMissingAnswers] returns, in increasing order, exactly the
    indices of the answers without a winner, and index 14 also when the
    answer of game 15 lacks one of its goals. *)
Theorem findMissingAnswers_spec answers :
  (∀ i, i ∈ findMissingAnswers answers
        ↔ ∃ ans, answers !! i = Some ans
                 ∧ (truthy (Answer.chosenWinner ans) = false
                    ∨ (i = 14 ∧ (truthy (Answer.goalsHomeTeam ans) = false
                                 ∨ truthy (Answer.goalsAwayTeam ans) = false))))
  ∧ StronglySorted lt (findMissingAnswers answers).
Proof.
  split; [| apply findMissingAnswers_sorted].
  intros i. rewrite elem_of_findMissingAnswers.
  split; intros (ans & Hans & Hmissing); exists ans; (split; [done |]);
    by apply isMissingAt_true.
Qed.

(** *** Auto-fill and the missing answers *)

Lemma chooseWinner_empty_iff quinipolo result :
  chooseWinner quinipolo result (Z.to_nat (MatchResult.matchNumber result - 1)) = ""
  ↔ ¬ recognised quinipolo result.
Proof.
  unfold chooseWinner, recognised.
  destruct (decide (MatchResult.outcome result = "Tie"
                    ∨ MatchResult.outcome result = "Tie (PEN)")) as [Htie | Htie].
  { split; [done | intros Hno; exfalso; apply Hno; tauto]. }
  destruct (Quinipolo.quinipolo quinipolo !! _) as [quinipoloMatch |] eqn:Hq.
  - destruct (decide (MatchResult.outcome result = Quinipolo.homeTeam quinipoloMatch))
      as [Hhome | Hhome].
    { split.
      - intros Hempty [? | [? | (? & [= <-] & Hne & _)]]; [tauto | tauto |].
        apply Hne. by rewrite Hhome.
      - intros Hno. destruct (decide (MatchResult.outcome result = "")) as [He | He];
          [by rewrite <- Hhome |].
        exfalso. apply Hno. right; right. exists quinipoloMatch. auto. }
    destruct (decide (MatchResult.outcome result = Quinipolo.awayTeam quinipoloMatch))
      as [Haway | Haway].
    { split.
      - intros Hempty [? | [? | (? & [= <-] & Hne & _)]]; [tauto | tauto |].
        apply Hne. by rewrite Haway.
      - intros Hno. destruct (decide (MatchResult.outcome result = "")) as [He | He];
          [by rewrite <- Haway |].
        exfalso. apply Hno. right; right. exists quinipoloMatch. auto. }
    split; [| done].
    intros _ [? | [? | (? & [= <-] & _ & [? | ?])]]; tauto.
  - split; [| done].
    intros _ [? | [? | (? & [=] & _)]]; tauto.
Qed.

Lemma scoreToGoalRange_truthy score : truthy (Some (scoreToGoalRange score)) = true.
Proof. unfold scoreToGoalRange. by repeat destruct (decide _). Qed.

Lemma isMissingAt_written quinipolo arr result :
  (1 <= MatchResult.matchNumber result <= 15)%Z →
  isMissingAt (Z.to_nat (MatchResult.matchNumber result - 1))
    (written quinipolo arr result) = true
  ↔ ¬ recognised quinipolo result.
Proof.
  intros Hin. rewrite <- chooseWinner_empty_iff, isMissingAt_true, written_winner.
  assert (Hgoals : Z.to_nat (MatchResult.matchNumber result - 1) = 14 →
            truthy (Answer.goalsHomeTeam (written quinipolo arr result)) = true
            ∧ truthy (Answer.goalsAwayTeam (written quinipolo arr result)) = true).
  { intros H14. unfold written. destruct (decide _) as [_ | Hne]; [| lia].
    unfold withGoals. cbn [Answer.goalsHomeTeam Answer.goalsAwayTeam].
    by rewrite !scoreToGoalRange_truthy. }
  unfold truthy at 1.
  destruct (decide (chooseWinner quinipolo result
                      (Z.to_nat (MatchResult.matchNumber result - 1)) = "")) as [He | He].
  - rewrite He. split; [done | by left].
  - rewrite bool_decide_eq_true_2 by done. split; [| done].
    intros [? | [H14 [Hg | Hg]]]; [done | |];
      destruct (Hgoals H14) as [Hh Ha]; congruence.
Qed.

Lemma arrayGet_fmap_Some (answers : list Answer.t) i :
  arrayGet (Some <$> answers) i = answers !! i.
Proof. unfold arrayGet. rewrite list_lookup_fmap. by destruct (answers !! i). Qed.

Lemma applyAutoFillResults_missing before result after answers answers' quinipolo :
  (1 <= MatchResult.matchNumber result <= 15)%Z →
  Forall (λ later, MatchResult.matchNumber later ≠ MatchResult.matchNumber result)
    after →
  applyAutoFillResults (before ++ result :: after) answers quinipolo
  = Some <$> answers' →
  Z.to_nat (MatchResult.matchNumber result - 1) ∈ findMissingAnswers answers'
  ↔ ¬ recognised quinipolo result.
Proof.
  intros Hin Hafter Hfilled.
  pose proof (applyAutoFillResults_last before result after answers quinipolo Hin Hafter)
    as Hslot.
  rewrite Hfilled, arrayGet_fmap_Some in Hslot.
  rewrite elem_of_findMissingAnswers.
  rewrite <- (isMissingAt_written quinipolo
                (applyAutoFillResults before answers quinipolo) result Hin).
  split; [intros (ans & Hans & Hmissing); congruence | eauto].
Qed.

(** X19: after auto-fill of a form without empty slots, the slot a
    result was written to last is reported missing exactly when the
    outcome of the result was not recognised; for game 15 the goals it
    writes are never missing. *)
Theorem applyAutoFillResults_missing_iff
    before result after answers answers' quinipolo :
  (1 <= MatchResult.matchNumber result <= 15)%Z →
  Forall (λ later, MatchResult.matchNumber later ≠ MatchResult.matchNumber result)
    after →
  applyAutoFillResults (before ++ result :: after) answers quinipolo
  = Some <$> answers' →
  Z.to_nat (MatchResult.matchNumber result - 1) ∈ findMissingAnswers answers'
  ↔ ¬ recognised quinipolo result.
Proof. apply applyAutoFillResults_missing. Qed.

Lemma applyAutoFillResults_missing_iff_witness :
  (1 <= MatchResult.matchNumber strangerResult <= 15)%Z
  ∧ Forall (λ later, MatchResult.matchNumber later
                     ≠ MatchResult.matchNumber strangerResult) [shootoutResult]
  ∧ (Z.to_nat (MatchResult.matchNumber strangerResult - 1)
     ∈ findMissingAnswers
         (omap id (applyAutoFillResults ([homeWinResult] ++ strangerResult :: [shootoutResult])
                     createInitialAnswers (formOf waterpolo)))
     ↔ ¬ recognised (formOf waterpolo) strangerResult).
Proof.
  assert (Hin : (1 <= MatchResult.matchNumber strangerResult <= 15)%Z) by (simpl; lia).
  assert (Hafter : Forall (λ later, MatchResult.matchNumber later
                                    ≠ MatchResult.matchNumber strangerResult)
                     [shootoutResult]).
  { apply Forall_cons. split; [simpl; lia | apply Forall_nil_2]. }
  assert (Hfilled :
    applyAutoFillResults ([homeWinResult] ++ strangerResult :: [shootoutResult])
      createInitialAnswers (formOf waterpolo)
    = Some <$> omap id (applyAutoFillResults
                          ([homeWinResult] ++ strangerResult :: [shootoutResult])
                          createInitialAnswers (formOf waterpolo)))
    by reflexivity.
  split; [exact Hin |]. split; [exact Hafter |].
  exact (applyAutoFillResults_missing_iff [homeWinResult] strangerResult [shootoutResult]
           createInitialAnswers _ (formOf waterpolo) Hin Hafter Hfilled).
Defined.

Lemma last_addressing (matches : list MatchResult.t) n :
  (∃ result, result ∈ matches ∧ MatchResult.matchNumber result = n) →
  ∃ before result after,
    matches = before ++ result :: after
    ∧ MatchResult.matchNumber result = n
    ∧ Forall (λ later, MatchResult.matchNumber later ≠ n) after.
Proof.
  induction matches as [| x matches IH] using rev_ind.
  - by intros (? & ?%elem_of_nil & _).
  - intros (result & Hin & Hn).
    destruct (decide (MatchResult.matchNumber x = n)) as [Hx | Hx].
    + exists matches, x, []. by repeat split.
    + apply elem_of_app in Hin as [Hin | Hin%list_elem_of_singleton]; [| congruence].
      destruct IH as (before & r & after & -> & Hr & Hafter); [by exists result |].
      exists before, r, (after ++ [x]). split; [by rewrite <- app_assoc |].
      split; [done |]. apply Forall_app. split; [done |].
      by apply Forall_singleton.
Qed.

(** X20: auto-fill with a recognised result for each of the fifteen
    matches completes a form of fifteen answers: nothing is missing
    afterwards, and submitting goes on to the request. *)
Theorem applyAutoFillResults_completes_form matches (answers : list Answer.t) quinipolo :
  length answers = 15 →
  (∀ n, (1 <= n <= 15)%Z →
        ∃ result, result ∈ matches ∧ MatchResult.matchNumber result = n) →
  (∀ result, result ∈ matches → (1 <= MatchResult.matchNumber result <= 15)%Z →
             recognised quinipolo result) →
  ∃ answers',
    applyAutoFillResults matches (Some <$> answers) quinipolo = Some <$> answers'
    ∧ findMissingAnswers answers' = []
    ∧ submitQuinipolo_step answers' = Submit (prepareAnswersForSubmission answers').
Proof.
  intros Hlen Hall Hrecognised.
  destruct (applyAutoFillResults_dense_fmap matches quinipolo answers)
    as (answers' & Hfilled & Hlen'); [lia |].
  exists answers'. split; [done |].
  assert (Hnone : findMissingAnswers answers' = []).
  { destruct (findMissingAnswers answers') as [| i rest] eqn:Hmissing; [done |].
    exfalso.
    assert (Hi : i ∈ findMissingAnswers answers') by (rewrite Hmissing; left).
    pose proof (findMissingAnswers_lt _ _ Hi) as Hlt.
    destruct (last_addressing matches (Z.of_nat i + 1))
      as (before & result & after & -> & Hn & Hafter); [apply Hall; lia |].
    rewrite <- Hn in Hafter.
    assert (Hin : (1 <= MatchResult.matchNumber result <= 15)%Z) by lia.
    pose proof (applyAutoFillResults_missing before result after _ answers' quinipolo
                  Hin Hafter Hfilled) as Hiff.
    replace (Z.to_nat (MatchResult.matchNumber result - 1)) with i in Hiff by lia.
    apply Hiff; [done |]. apply Hrecognised; [| done].
    apply elem_of_app. right. left. }
  split; [done |]. unfold submitQuinipolo_step. by rewrite Hnone.
Qed.

Lemma applyAutoFillResults_completes_form_witness :
  length initialAnswers = 15
  ∧ ∃ answers',
      applyAutoFillResults fullRound (Some <$> initialAnswers) (formOf waterpolo)
      = Some <$> answers'
      ∧ findMissingAnswers answers' = []
      ∧ submitQuinipolo_step answers' = Submit (prepareAnswersForSubmission answers').
Proof.
  split; [reflexivity |].
  apply (applyAutoFillResults_completes_form fullRound initialAnswers (formOf waterpolo)).
  - reflexivity.
  - intros n Hn.
    eexists. split; [| shelve].
    apply list_elem_of_fmap. exists (Z.to_nat n). split; [reflexivity |].
    apply elem_of_seq. lia.
    Unshelve. simpl. lia.
  - intros result Hin _. unfold fullRound in Hin.
    apply list_elem_of_fmap in Hin as (n & -> & Hn%elem_of_seq).
    unfold recognised. simpl.
    destruct (decide (n = 2)) as [-> | H2].
    + right; right. eexists. split; [reflexivity |]. split; [done | by left].
    + destruct (decide (n = 15)); [right; by left | by left].
Defined.

(** *** Submission *)

Lemma prepareAnswersForSubmission_lookup answers i :
  prepareAnswersForSubmission answers !! i
  = (λ answer,
       {| Answer.matchNumber := Some (Z.of_nat i + 1)%Z;
          Answer.chosenWinner := Answer.chosenWinner answer;
          Answer.isGame15 := None;
          Answer.goalsHomeTeam :=
            if decide (i = 14) then Answer.goalsHomeTeam answer else None;
          Answer.goalsAwayTeam :=
            if decide (i = 14) then Answer.goalsAwayTeam answer else None |})
    <$> answers !! i.
Proof.
  unfold prepareAnswersForSubmission. rewrite list_lookup_imap.
  destruct (answers !! i) as [answer |]; [| done]. simpl.
  by destruct (decide (i = 14)).
Qed.

(** X21: [submitQuinipolo] either warns, pointing at the first missing
    answer, or goes on with one entry per answer, numbered by position,
    each with a winner, goals on the entry of game 15 only, and both of
    them chosen there. *)
Theorem submitQuinipolo_step_spec answers :
  match submitQuinipolo_step answers with
  | WarnMissing missing matches firstMissing =>
      missing = findMissingAnswers answers
      ∧ matches = (λ i, i + 1) <$> missing
      ∧ ∃ first ans,
          firstMissing = Some first
          ∧ answers !! first = Some ans
          ∧ isMissingAt first ans = true
          ∧ ∀ i, i ∈ missing → first ≤ i
  | Submit answersToSubmit =>
      length answersToSubmit = length answers
      ∧ ∀ i entry, answersToSubmit !! i = Some entry →
          Answer.matchNumber entry = Some (Z.of_nat i + 1)%Z
          ∧ truthy (Answer.chosenWinner entry) = true
          ∧ (i = 14 → truthy (Answer.goalsHomeTeam entry) = true
                      ∧ truthy (Answer.goalsAwayTeam entry) = true)
          ∧ (i ≠ 14 → Answer.goalsHomeTeam entry = None
                      ∧ Answer.goalsAwayTeam entry = None)
  end.
Proof.
  unfold submitQuinipolo_step.
  destruct (decide (0 < length (findMissingAnswers answers))) as [Hsome | Hnone].
  - split; [done |]. split; [done |].
    pose proof (findMissingAnswers_sorted answers) as Hsorted.
    destruct (findMissingAnswers answers) as [| first rest] eqn:Hmissing;
      [simpl in Hsome; lia |].
    assert (Hfirst : first ∈ findMissingAnswers answers) by (rewrite Hmissing; left).
    apply elem_of_findMissingAnswers in Hfirst as (ans & Hans & Hmiss).
    exists first, ans. repeat split; [done | done |].
    intros i [-> | Hi]%elem_of_cons; [done |].
    apply StronglySorted_inv in Hsorted as [_ Hlt].
    rewrite Forall_forall in Hlt. by apply Nat.lt_le_incl, Hlt.
  - split; [apply length_imap |].
    intros i entry. rewrite prepareAnswersForSubmission_lookup.
    destruct (answers !! i) as [answer |] eqn:Hanswer; [| done].
    intros [= <-]. simpl.
    assert (Hnot : isMissingAt i answer ≠ true).
    { intros Hmiss.
      assert (Hi : i ∈ findMissingAnswers answers)
        by (apply elem_of_findMissingAnswers; eauto).
      destruct (findMissingAnswers answers); [by apply elem_of_nil in Hi |].
      simpl in Hnone. lia. }
    rewrite isMissingAt_true in Hnot.
    split; [done |].
    split; [destruct (truthy (Answer.chosenWinner answer)); tauto |].
    split.
    + intros ->. simpl.
      destruct (truthy (Answer.goalsHomeTeam answer)),
               (truthy (Answer.goalsAwayTeam answer)); tauto.
    + intros Hne. by destruct (decide (i = 14)).
Qed.

(** *** The round trip of a correction *)

(** X22: what [prepareAnswersForSubmission] makes of a form of fifteen
    answers, read back by [mapCorrectAnswersToInitial] into the initial
    answers, has the winner of every answer and the goals of game 15,
    a missing property read as the empty string; the goals of the other
    answers are lost. *)
Theorem correction_round_trip answers :
  length answers = 15 →
  mapCorrectAnswersToInitial (prepareAnswersForSubmission answers) initialAnswers
  = imap reloaded answers.
Proof.
  intros Hlen.
  do 15 (destruct answers as [| ? answers]; [done |]).
  destruct answers; [| done].
  reflexivity.
Qed.

Lemma correction_round_trip_witness :
  length initialAnswers = 15
  ∧ mapCorrectAnswersToInitial (prepareAnswersForSubmission initialAnswers) initialAnswers
    = imap reloaded initialAnswers.
Proof.
  split; [reflexivity |].
  exact (correction_round_trip initialAnswers eq_refl).
Defined.

(** *** [handleGame15Change] *)

Lemma split___underscoreFree s : underscoreFree s → split__ s = (s, []).
Proof.
  induction s as [| c s IH]; [done |].
  intros [Hc Hs]. simpl. destruct s as [| c' s']; [done |].
  destruct (decide _) as [Heq | _]; [exfalso; apply Hc; congruence |].
  by rewrite (IH Hs).
Qed.

Lemma split___separator goalValue rest :
  underscoreFree goalValue →
  split__ (goalValue +:+ "__" +:+ rest)
  = (goalValue, (split__ rest).1 :: (split__ rest).2).
Proof.
  induction goalValue as [| c s IH].
  - intros _. cbv [String.append]. simpl. by destruct (split__ rest).
  - intros [Hc Hs].
    change (String c s +:+ "__" +:+ rest) with (String c (s +:+ "__" +:+ rest)).
    specialize (IH Hs).
    assert (Hcons : ∃ c' tail, s +:+ "__" +:+ rest = String c' tail).
    { destruct s; by eexists _, _. }
    destruct Hcons as (c' & tail & Hcons). rewrite Hcons in IH |- *.
    simpl. destruct (decide _) as [Heq | _]; [exfalso; apply Hc; congruence |].
    simpl in IH. by rewrite IH.
Qed.

(** X23: outside the read-only modes, choosing a goal range for game 15
    writes it to the home goals when the value names ["home"] and to the
    away goals otherwise, keeps the winner and the other slots, and
    clears index 14 from the missing answers exactly when both goals are
    then chosen. *)
Theorem handleGame15Change_spec seeUserAnswersModeOn viewOnlyModeOn goalValue team state :
  default false seeUserAnswersModeOn = false →
  truthy viewOnlyModeOn = false →
  underscoreFree goalValue →
  underscoreFree team →
  let state' :=
    handleGame15Change seeUserAnswersModeOn viewOnlyModeOn
      (Some (goalValue +:+ "__" +:+ team)) state in
  let old := spread (arrayGet (answers state) 14) in
  let home := if decide (team = "home") then Some goalValue
              else Answer.goalsHomeTeam old in
  let away := if decide (team = "home") then Answer.goalsAwayTeam old
              else Some goalValue in
  arrayGet (answers state') 14
  = Some {| Answer.matchNumber := Some 15%Z;
            Answer.chosenWinner := Answer.chosenWinner old;
            Answer.isGame15 := Answer.isGame15 old;
            Answer.goalsHomeTeam := home;
            Answer.goalsAwayTeam := away |}
  ∧ (∀ j, j ≠ 14 → arrayGet (answers state') j = arrayGet (answers state) j)
  ∧ (∀ i, i ∈ missingAnswerIndices state'
          ↔ i ∈ missingAnswerIndices state
            ∧ (i = 14 → ¬ (truthy home = true ∧ truthy away = true))).
Proof.
  intros Hsee Hview Hgoal Hteam. unfold handleGame15Change.
  rewrite Hsee, Hview. simpl orb. cbv iota.
  rewrite (split___separator goalValue team Hgoal), (split___underscoreFree team Hteam).
  cbn [fst snd lookup list_lookup].
  destruct (decide (team = "home")) as [-> | Hne].
  - rewrite decide_True by done. cbn zeta. cbn [answers missingAnswerIndices].
    rewrite !arrayGet_arraySet_eq. cbn [mbind option_bind Answer.goalsHomeTeam
                                        Answer.goalsAwayTeam].
    split; [done |].
    split; [intros j Hj; by rewrite arrayGet_arraySet_ne |].
    intros i.
    destruct (truthy (Some goalValue) && truthy (Answer.goalsAwayTeam _)) eqn:Hboth.
    + apply andb_true_iff in Hboth as [Hh Ha].
      rewrite list_elem_of_filter. split; [intros [? ?]; split; [done | tauto] |].
      intros [Hi Hno]. split; [| done]. intros ->. by apply Hno.
    + split; [| tauto]. intros Hi. split; [done |].
      intros _ [Hh Ha]. rewrite Hh, Ha in Hboth. done.
  - rewrite decide_False by congruence. cbn zeta. cbn [answers missingAnswerIndices].
    rewrite !arrayGet_arraySet_eq. cbn [mbind option_bind Answer.goalsHomeTeam
                                        Answer.goalsAwayTeam].
    split; [done |].
    split; [intros j Hj; by rewrite arrayGet_arraySet_ne |].
    intros i.
    destruct (truthy (Answer.goalsHomeTeam _) && truthy (Some goalValue)) eqn:Hboth.
    + apply andb_true_iff in Hboth as [Hh Ha].
      rewrite list_elem_of_filter. split; [intros [? ?]; split; [done | tauto] |].
      intros [Hi Hno]. split; [| done]. intros ->. by apply Hno.
    + split; [| tauto]. intros Hi. split; [done |].
      intros _ [Hh Ha]. rewrite Hh, Ha in Hboth. done.
Qed.

Lemma handleGame15Change_spec_witness :
  default false (Some false) = false
  ∧ truthy None = false
  ∧ underscoreFree "11/12"
  ∧ underscoreFree "home"
  ∧ let state := {| answers := createInitialAnswers; missingAnswerIndices := [3; 14] |} in
    let state' := handleGame15Change (Some false) None (Some ("11/12" +:+ "__" +:+ "home"))
                    state in
    let old := spread (arrayGet (answers state) 14) in
    let home := if decide ("home" = "home") then Some "11/12"
                else Answer.goalsHomeTeam old in
    let away := if decide ("home" = "home") then Answer.goalsAwayTeam old
                else Some "11/12" in
    arrayGet (answers state') 14
    = Some {| Answer.matchNumber := Some 15%Z;
              Answer.chosenWinner := Answer.chosenWinner old;
              Answer.isGame15 := Answer.isGame15 old;
              Answer.goalsHomeTeam := home;
              Answer.goalsAwayTeam := away |}
    ∧ (∀ j, j ≠ 14 → arrayGet (answers state') j = arrayGet (answers state) j)
    ∧ (∀ i, i ∈ missingAnswerIndices state'
            ↔ i ∈ missingAnswerIndices state
              ∧ (i = 14 → ¬ (truthy home = true ∧ truthy away = true))).
Proof.
  assert (Hgoal : underscoreFree "11/12") by (simpl; repeat split; discriminate).
  assert (Hteam : underscoreFree "home") by (simpl; repeat split; discriminate).
  split; [reflexivity |]. split; [reflexivity |].
  split; [exact Hgoal |]. split; [exact Hteam |].
  exact (handleGame15Change_spec (Some false) None "11/12" "home"
           {| answers := createInitialAnswers; missingAnswerIndices := [3; 14] |}
           eq_refl eq_refl Hgoal Hteam).
Defined.

(** *** [mapCorrectAnswersToInitial] *)

(** X24: [mapCorrectAnswersToInitial] returns as many answers as the
    initial ones, each with the match number and the game-15 flag of the
    initial answer, and the initial answer itself where no correct
    answer carries the number of its position. *)
Theorem mapCorrectAnswersToInitial_frame correctAnswers initialAnswers :
  length (mapCorrectAnswersToInitial correctAnswers initialAnswers)
  = length initialAnswers
  ∧ ∀ i defaultAnswer, initialAnswers !! i = Some defaultAnswer →
      ∃ answer,
        mapCorrectAnswersToInitial correctAnswers initialAnswers !! i = Some answer
        ∧ Answer.matchNumber answer = Answer.matchNumber defaultAnswer
        ∧ Answer.isGame15 answer = Answer.isGame15 defaultAnswer
        ∧ ((∀ correctAnswer, correctAnswer ∈ correctAnswers →
              Answer.matchNumber correctAnswer ≠ Some (Z.of_nat i + 1)%Z) →
           answer = defaultAnswer).
Proof.
  unfold mapCorrectAnswersToInitial. split; [apply length_imap |].
  intros i defaultAnswer Hdefault. rewrite list_lookup_imap, Hdefault. simpl.
  destruct (List.find _ correctAnswers) as [correctAnswer |] eqn:Hfind.
  - eexists. split; [done |]. split; [done |]. split; [done |].
    intros Hnone. apply find_some in Hfind as [Hin Htest].
    apply bool_decide_eq_true_1 in Htest.
    exfalso. apply (Hnone correctAnswer); [| done]. by apply list_elem_of_In.
  - by exists defaultAnswer.
Qed.

End AnswersFormFacts.
